(** * examples/sqlite_trace.py: a SQLite-backed trace recorder

    A shallow embedding of the module [examples/sqlite_trace.py] and of the
    parts of Python's [json], [uuid], [time] and [sqlite3] modules that it
    calls, followed by the properties of the recorder.

    Layout of the file:
    - Python values ([str], [bytes], formatting in base 16);
    - [json.dumps] on a list of pairs of strings, and a reader of that format;
    - the [sqlite3] connection: tables, statements, transactions, failures;
    - the process state ([world]) and the monad [M] of its effects;
    - the module itself: [init_sqlite], [_serialize_headers],
      [_insert_event], [SQLiteTraceRecorder] and its five handlers;
    - the host that calls the factory and the handlers;
    - the vocabulary of the statements and of the proofs, an example process;
    - the lemmas, and last the properties of the specification. *)

From Stdlib Require Import PrimFloat Ascii String NArith ZArith.
From stdpp Require Import base option list numbers strings.

Open Scope N_scope.

(** ** Python values *)

(** A Python [str] is a sequence of code points; [valid_str] is the range
    CPython allows ([sys.maxunicode] is 0x10FFFF).  Surrogates (U+D800 to
    U+DFFF) are ordinary elements of a [str]. *)
Definition str : Type := list N.

Definition valid_code_point (c : N) : bool := c <? 0x110000.
Definition valid_str (s : str) : bool := forallb valid_code_point s.

(** A high surrogate immediately followed by a low surrogate does not occur
    in [s].  Such a pair is how UTF-16 writes one code point above 0xFFFF;
    a [str] holds that code point as one element. *)
Definition is_high_surrogate (u : N) : bool := (0xd800 <=? u) && (u <=? 0xdbff).
Definition is_low_surrogate (u : N) : bool := (0xdc00 <=? u) && (u <=? 0xdfff).

Fixpoint no_surrogate_pair (s : str) : bool :=
  match s with
  | c :: r =>
      match r with
      | c' :: _ => negb (is_high_surrogate c && is_low_surrogate c')
      | [] => true
      end && no_surrogate_pair r
  | [] => true
  end.

(** A literal of the source as a [str]. *)
Definition py (s : string) : str :=
  (fun a => N_of_ascii a) <$> list_ascii_of_string s.

Definition bytes : Type := list Byte.byte.

(** [len] of a sequence, as a Python [int]. *)
Definition len {A} (l : list A) : Z := Z.of_nat (length l).

(** [format(n, '0<width>x')] for [n < 16 ^ width]: lower-case digits in
    base 16, padded with zeros on the left. *)
Definition hexdigit (d : N) : N := if d <? 10 then 48 + d else 87 + d.

Fixpoint hex_digits (width : nat) (n : N) : str :=
  match width with
  | O => []
  | S w => hex_digits w (n / 16) ++ [hexdigit (n mod 16)]
  end.

(** The value of one digit in base 16, as [int(_, 16)] reads it. *)
Definition hexval (c : N) : option N :=
  if (48 <=? c) && (c <=? 57) then Some (c - 48)
  else if (97 <=? c) && (c <=? 102) then Some (c - 87)
  else if (65 <=? c) && (c <=? 70) then Some (c - 55)
  else None.

Definition int_base16 (digits : str) : option N :=
  foldl (fun acc c => a ← acc; d ← hexval c; Some (16 * a + d)) (Some 0) digits.

(** ** [json.dumps] with its defaults ([ensure_ascii=True], a comma and a
    space between items), on the values [_serialize_headers] passes to it: a
    list of 2-tuples of [str]. *)
Module json.

(** [ESCAPE_ASCII]: a backslash, a double quote, or anything outside the
    printable ASCII range from the space to the tilde. *)
Definition ESCAPE_ASCII (c : N) : bool :=
  (c =? 92) || (c =? 34) || negb ((32 <=? c) && (c <=? 126)).

(** [ESCAPE_DCT]; its entries for the other code points below 0x20 are
    [\u00XX], which is what [replace] computes for them. *)
Definition ESCAPE_DCT (c : N) : option str :=
  if c =? 92 then Some [92; 92]         (* backslash backslash *)
  else if c =? 34 then Some [92; 34]    (* backslash quote *)
  else if c =? 8 then Some [92; 98]     (* backslash b *)
  else if c =? 12 then Some [92; 102]   (* backslash f *)
  else if c =? 10 then Some [92; 110]   (* backslash n *)
  else if c =? 13 then Some [92; 114]   (* backslash r *)
  else if c =? 9 then Some [92; 116]    (* backslash t *)
  else None.

(** The two halves of the surrogate pair of a code point above 0xFFFF. *)
Definition high_surrogate (c : N) : N :=
  N.lor 0xd800 (N.land (N.shiftr (c - 0x10000) 10) 0x3ff).
Definition low_surrogate (c : N) : N :=
  N.lor 0xdc00 (N.land (c - 0x10000) 0x3ff).

(** [replace] of [py_encode_basestring_ascii]. *)
Definition replace (c : N) : str :=
  match ESCAPE_DCT c with
  | Some s => s
  | None =>
      if c <? 0x10000 then [92; 117] ++ hex_digits 4 c
      else [92; 117] ++ hex_digits 4 (high_surrogate c)
           ++ [92; 117] ++ hex_digits 4 (low_surrogate c)
  end.

Definition encode_char (c : N) : str :=
  if ESCAPE_ASCII c then replace c else [c].

Definition py_encode_basestring_ascii (s : str) : str :=
  [34] ++ (s ≫= encode_char) ++ [34].

(** [_iterencode_list]: the two brackets for the empty list, otherwise
    the items separated by a comma and a space between brackets.  A tuple is written as a list. *)
Definition iterencode_list {A} (enc : A → str) (l : list A) : str :=
  match l with
  | [] => [91; 93]
  | x :: xs => [91] ++ enc x ++ (xs ≫= fun y => [44; 32] ++ enc y) ++ [93]
  end.

Definition encode_tuple (p : str * str) : str :=
  iterencode_list py_encode_basestring_ascii [p.1; p.2].

Definition dumps (obj : list (str * str)) : str :=
  iterencode_list encode_tuple obj.

(** *** The reader *)

(** Modelled from the spec: the decoder of the header format.  The source
    has the serializer only; the spec calls its output a JSON array of
    2-element arrays, decodable back into the pair list.  The reader below
    follows [json.loads] ([json.decoder]: [scanstring] in strict mode,
    [JSONArray], the white space it skips) on texts of that shape and
    rejects every other text. *)
Definition WHITESPACE (c : N) : bool :=
  (c =? 32) || (c =? 9) || (c =? 10) || (c =? 13).

Fixpoint skip_ws (s : str) : str :=
  match s with
  | c :: r => if WHITESPACE c then skip_ws r else s
  | [] => []
  end.

Definition BACKSLASH (e : N) : option N :=
  if e =? 34 then Some 34
  else if e =? 92 then Some 92
  else if e =? 47 then Some 47
  else if e =? 98 then Some 8
  else if e =? 102 then Some 12
  else if e =? 110 then Some 10
  else if e =? 114 then Some 13
  else if e =? 116 then Some 9
  else None.

Definition join_surrogates (uni uni2 : N) : N :=
  0x10000 + N.lor (N.shiftl (uni - 0xd800) 10) (uni2 - 0xdc00).

(** [scanstring], entered after the opening quote: the decoded string and
    the text after the closing quote.  A [\uXXXX] that is a high surrogate
    and is followed by a [\uXXXX] that is a low surrogate is read as one
    code point. *)
Fixpoint scanstring (s : str) : option (str * str) :=
  match s with
  | [] => None
  | c :: r =>
      if c =? 34 then Some ([], r)
      else if c =? 92 then
        match r with
        | [] => None
        | e :: r1 =>
            if e =? 117 then
              match r1 with
              | h1 :: h2 :: h3 :: h4 :: r2 =>
                  match int_base16 [h1; h2; h3; h4] with
                  | None => None
                  | Some uni =>
                      let single :=
                        match scanstring r2 with
                        | Some (v, rest) => Some (uni :: v, rest)
                        | None => None
                        end in
                      if is_high_surrogate uni then
                        match r2 with
                        | b :: u :: l1 :: l2 :: l3 :: l4 :: r3 =>
                            if (b =? 92) && (u =? 117) then
                              match int_base16 [l1; l2; l3; l4] with
                              | None => None
                              | Some uni2 =>
                                  if is_low_surrogate uni2 then
                                    match scanstring r3 with
                                    | Some (v, rest) =>
                                        Some (join_surrogates uni uni2 :: v, rest)
                                    | None => None
                                    end
                                  else single
                              end
                            else single
                        | _ => single
                        end
                      else single
                  end
              | _ => None
              end
            else
              match BACKSLASH e with
              | None => None
              | Some ch =>
                  match scanstring r1 with
                  | Some (v, rest) => Some (ch :: v, rest)
                  | None => None
                  end
              end
        end
      else if c <? 32 then None
      else
        match scanstring r with
        | Some (v, rest) => Some (c :: v, rest)
        | None => None
        end
  end.

(** A string value: the opening quote, then [scanstring]. *)
Definition scan_string (s : str) : option (str * str) :=
  match s with
  | c :: r => if c =? 34 then scanstring r else None
  | [] => None
  end.

Definition expect (c : N) (s : str) : option str :=
  match s with
  | c' :: r => if c' =? c then Some r else None
  | [] => None
  end.

(** [JSONArray] on an array of exactly two strings. *)
Definition scan_pair (s : str) : option ((str * str) * str) :=
  r ← expect 91 s;
  '(name, r) ← scan_string (skip_ws r);
  r ← expect 44 (skip_ws r);
  '(value, r) ← scan_string (skip_ws r);
  r ← expect 93 (skip_ws r);
  Some ((name, value), r).

(** The loop of [JSONArray], entered at the first item of an array that is
    not empty.  [fuel] bounds the number of items. *)
Fixpoint scan_items (fuel : nat) (s : str) : option (list (str * str) * str) :=
  match fuel with
  | O => None
  | S fuel =>
      '(item, r) ← scan_pair s;
      match skip_ws r with
      | c :: r' =>
          if c =? 93 then Some ([item], r')
          else if c =? 44 then
            '(items, r'') ← scan_items fuel (skip_ws r');
            Some (item :: items, r'')
          else None
      | [] => None
      end
  end.

(** [json.loads]: one array, white space around it, nothing after it. *)
Definition loads (s : str) : option (list (str * str)) :=
  r ← expect 91 (skip_ws s);
  '(items, r') ←
    match skip_ws r with
    | c :: r' => if c =? 93 then Some ([], r')
                 else scan_items (length r) (skip_ws r)
    | [] => None
    end;
  match skip_ws r' with
  | [] => Some items
  | _ :: _ => None
  end.

End json.

(** ** The module's serializer *)

(** [_serialize_headers(headers)]: [json.dumps(list(headers))]. *)
Definition _serialize_headers (headers : list (str * str)) : str :=
  json.dumps headers.

(** Modelled from the spec: reading a serialized header list back. *)
Definition deserialize_headers (s : str) : option (list (str * str)) :=
  json.loads s.

(** Header lists as the host client passes them: every name and value is a
    [str]. *)
Definition valid_headers (headers : list (str * str)) : bool :=
  forallb (fun p => valid_str p.1 && valid_str p.2) headers.

Definition no_surrogate_pairs (headers : list (str * str)) : bool :=
  forallb (fun p => no_surrogate_pair p.1 && no_surrogate_pair p.2) headers.

(** ** Vocabulary of the reader

    What the decoder looks for after a high surrogate: a backslash, the
    letter u and four more characters. *)
Section json_vocabulary.
Import json.

Definition escape_ahead (r2 : str) : option (str * str) :=
  match r2 with
  | b :: u :: l1 :: l2 :: l3 :: l4 :: r3 =>
      if (b =? 92) && (u =? 117) then Some ([l1; l2; l3; l4], r3) else None
  | _ => None
  end.

Definition prepend (c : N) (o : option (str * str)) : option (str * str) :=
  match o with Some (v, rest) => Some (c :: v, rest) | None => None end.

(** The four ways the encoder writes one code point. *)
Inductive encoding : N → str → Prop :=
| enc_plain c : ESCAPE_ASCII c = false → encoding c [c]
| enc_short c e : e ≠ 117 → BACKSLASH e = Some c → encoding c [92; e]
| enc_u c : c < 0x10000 → encoding c (92 :: 117 :: hex_digits 4 c)
| enc_pair c : 0x10000 <= c →
    encoding c (92 :: 117 :: hex_digits 4 (high_surrogate c)
                ++ 92 :: 117 :: hex_digits 4 (low_surrogate c)).

(** What follows a lone high surrogate is never read as its second half. *)
Definition not_low_ahead (r2 : str) : Prop :=
  match escape_ahead r2 with
  | Some (ds, _) => ∃ uni2, int_base16 ds = Some uni2 ∧ is_low_surrogate uni2 = false
  | None => True
  end.

(** A pair of strings that the reader gives back as written. *)
Definition pair_ok (p : str * str) : Prop :=
  valid_str p.1 = true ∧ valid_str p.2 = true ∧
  no_surrogate_pair p.1 = true ∧ no_surrogate_pair p.2 = true.

End json_vocabulary.

(** ** The [sqlite3] module

    The storage handle of the recorder is a [sqlite3.Connection] in the
    module's default (legacy) transaction control: an INSERT opens a
    transaction when none is open, [commit] makes the pending rows durable,
    [executescript] commits a pending transaction and then runs its
    statements in autocommit mode.  The database is the one this module
    lays out: a table has the columns [init_sqlite] gives it. *)

Inductive exception : Type :=
| OperationalError (msg : string)
| ProgrammingError (msg : string)
| IntegrityError (msg : string)
| ReferenceError (msg : string).

Inductive sqltype : Type := INTEGER | REAL | TEXT | BLOB.

Record column : Type := {
  col_name : string;
  col_type : sqltype;
  col_not_null : bool;
  col_primary_key_autoincrement : bool;
  col_references : option (string * string)
}.

(** [CREATE TABLE IF NOT EXISTS name (columns)]. *)
Record create_table : Type := {
  ct_name : string;
  ct_columns : list column
}.

(** The rows of the six tables. *)
Record events_row : Type := {
  ev_id : Z;
  ev_ts : float;
  ev_request_id : str;
  ev_event_type : str
}.

Record request_start_row : Type := {
  rs_event_id : Z;
  rs_method : str;
  rs_url : str;
  rs_headers : str
}.

Record request_end_row : Type := {
  re_event_id : Z;
  re_status : Z;
  re_reason : option str;
  re_headers : str;
  re_elapsed : float
}.

Record request_exception_row : Type := {
  rx_event_id : Z;
  rx_exception : str
}.

Record chunk_row : Type := {
  ck_event_id : Z;
  ck_chunk_index : Z;
  ck_size : Z;
  ck_payload : bytes
}.

(** A database: the tables that exist (in creation order), the rows of each
    table in insertion order, and the AUTOINCREMENT counter of [events]
    (its row of [sqlite_sequence]). *)
Record database : Type := {
  db_schema : list create_table;
  events : list events_row;
  events_sequence : Z;
  request_start : list request_start_row;
  request_end : list request_end_row;
  request_exception : list request_exception_row;
  request_chunk : list chunk_row;
  response_chunk : list chunk_row
}.

Definition empty_database : database :=
  {| db_schema := []; events := []; events_sequence := 0;
     request_start := []; request_end := []; request_exception := [];
     request_chunk := []; response_chunk := [] |}.

Definition table_names (db : database) : list string := ct_name <$> db_schema db.

Definition table_exists (name : string) (db : database) : bool :=
  bool_decide (name ∈ table_names db).

(** The statements with their bound parameters. *)
Inductive statement : Type :=
| INSERT_INTO_events (ts : float) (request_id event_type : str)
| INSERT_INTO_request_start (event_id : Z) (method url headers : str)
| INSERT_INTO_request_end
    (event_id status : Z) (reason : option str) (headers : str) (elapsed : float)
| INSERT_INTO_request_exception (event_id : Z) (exception_text : str)
| INSERT_INTO_request_chunk (event_id chunk_index size : Z) (payload : bytes)
| INSERT_INTO_response_chunk (event_id chunk_index size : Z) (payload : bytes).

Definition statement_table (sql : statement) : string :=
  match sql with
  | INSERT_INTO_events _ _ _ => "events"
  | INSERT_INTO_request_start _ _ _ _ => "request_start"
  | INSERT_INTO_request_end _ _ _ _ _ => "request_end"
  | INSERT_INTO_request_exception _ _ => "request_exception"
  | INSERT_INTO_request_chunk _ _ _ _ => "request_chunk"
  | INSERT_INTO_response_chunk _ _ _ _ => "response_chunk"
  end.

(** AUTOINCREMENT: one more than the largest rowid the table has ever held. *)
Definition next_event_id (db : database) : Z :=
  1 + foldr Z.max (events_sequence db) (ev_id <$> events db).

(** The rowid of a table without an INTEGER PRIMARY KEY; no row is ever
    deleted, so it is the number of rows after the insert. *)
Definition next_rowid {A} (rows : list A) : Z := 1 + len rows.

(** One INSERT on a database in which its table exists: the new database
    and the rowid of the new row. *)
Definition insert_row (sql : statement) (db : database) : database * Z :=
  match sql with
  | INSERT_INTO_events ts request_id event_type =>
      let id := next_event_id db in
      ({| db_schema := db_schema db;
          events := events db ++ [{| ev_id := id; ev_ts := ts;
                                     ev_request_id := request_id;
                                     ev_event_type := event_type |}];
          events_sequence := id;
          request_start := request_start db;
          request_end := request_end db;
          request_exception := request_exception db;
          request_chunk := request_chunk db;
          response_chunk := response_chunk db |}, id)
  | INSERT_INTO_request_start event_id method url headers =>
      ({| db_schema := db_schema db;
          events := events db;
          events_sequence := events_sequence db;
          request_start := request_start db ++
            [{| rs_event_id := event_id; rs_method := method;
                rs_url := url; rs_headers := headers |}];
          request_end := request_end db;
          request_exception := request_exception db;
          request_chunk := request_chunk db;
          response_chunk := response_chunk db |},
       next_rowid (request_start db))
  | INSERT_INTO_request_end event_id status reason headers elapsed =>
      ({| db_schema := db_schema db;
          events := events db;
          events_sequence := events_sequence db;
          request_start := request_start db;
          request_end := request_end db ++
            [{| re_event_id := event_id; re_status := status; re_reason := reason;
                re_headers := headers; re_elapsed := elapsed |}];
          request_exception := request_exception db;
          request_chunk := request_chunk db;
          response_chunk := response_chunk db |},
       next_rowid (request_end db))
  | INSERT_INTO_request_exception event_id exception_text =>
      ({| db_schema := db_schema db;
          events := events db;
          events_sequence := events_sequence db;
          request_start := request_start db;
          request_end := request_end db;
          request_exception := request_exception db ++
            [{| rx_event_id := event_id; rx_exception := exception_text |}];
          request_chunk := request_chunk db;
          response_chunk := response_chunk db |},
       next_rowid (request_exception db))
  | INSERT_INTO_request_chunk event_id chunk_index size payload =>
      ({| db_schema := db_schema db;
          events := events db;
          events_sequence := events_sequence db;
          request_start := request_start db;
          request_end := request_end db;
          request_exception := request_exception db;
          request_chunk := request_chunk db ++
            [{| ck_event_id := event_id; ck_chunk_index := chunk_index;
                ck_size := size; ck_payload := payload |}];
          response_chunk := response_chunk db |},
       next_rowid (request_chunk db))
  | INSERT_INTO_response_chunk event_id chunk_index size payload =>
      ({| db_schema := db_schema db;
          events := events db;
          events_sequence := events_sequence db;
          request_start := request_start db;
          request_end := request_end db;
          request_exception := request_exception db;
          request_chunk := request_chunk db;
          response_chunk := response_chunk db ++
            [{| ck_event_id := event_id; ck_chunk_index := chunk_index;
                ck_size := size; ck_payload := payload |}] |},
       next_rowid (response_chunk db))
  end.

(** [CREATE TABLE IF NOT EXISTS]: nothing happens when a table of that name
    exists. *)
Definition create_table_if_not_exists (ddl : create_table) (db : database) : database :=
  if table_exists (ct_name ddl) db then db
  else {| db_schema := db_schema db ++ [ddl];
          events := events db;
          events_sequence := events_sequence db;
          request_start := request_start db;
          request_end := request_end db;
          request_exception := request_exception db;
          request_chunk := request_chunk db;
          response_chunk := response_chunk db |}.

(** A connection: the database as committed, the database as this
    connection sees it (with the rows of the open transaction), whether a
    transaction is open, and whether [close] was called. *)
Record Connection : Type := {
  durable : database;
  working : database;
  in_transaction : bool;
  closed : bool
}.

Record Cursor : Type := { lastrowid : Z }.

(** A failure of the storage backend (database locked, disk full, I/O
    error): the exception [sqlite3] raises, and whether SQLite rolled the
    open transaction back on its own. *)
Record fault : Type := {
  fault_exception : exception;
  fault_rolls_back : bool
}.

(** ** Trace contexts and the parameters of the hooks *)

(** The [SimpleNamespace] that [_ctx_factory] builds. *)
Record SimpleNamespace : Type := {
  request_id : str;
  started : float;
  request_chunk_index : Z;
  response_chunk_index : Z
}.

Inductive ClientSession : Type := client_session.

(** Modelled from the spec: the parameter objects of the five hooks
    ([aiohttp.tracing] is not among the sources), with the attributes the
    handlers read: method, URL and headers on start; the response with its
    status, reason and headers on end; the exception on exception; the raw
    bytes on the two chunk hooks.  [URL_str] is [str(url)], [exc_repr] is
    [repr(exception)], a header collection is the list of its [items()]. *)
Record URL : Type := { URL_str : str }.
Record BaseException : Type := { exc_repr : str }.

Record ClientResponse : Type := {
  status : Z;
  reason : option str;
  response_headers : list (str * str)
}.

Record TraceRequestStartParams : Type := {
  start_method : str;
  start_url : URL;
  start_headers : list (str * str)
}.
Record TraceRequestEndParams : Type := { end_response : ClientResponse }.
Record TraceRequestExceptionParams : Type := { exc_exception : BaseException }.
Record TraceRequestChunkSentParams : Type := { sent_chunk : bytes }.
Record TraceResponseChunkReceivedParams : Type := { received_chunk : bytes }.

(** ** The process state *)

(** What the program does to objects it holds by reference, in order. *)
Inductive call : Type :=
| call_connect (conn : nat)
| call_close (conn : nat)
| call_execute (conn : nat) (sql : statement)
| call_create_table (conn : nat) (ddl : create_table)
| call_commit (conn : nat)
| call_setattr (ctx : nat) (attribute : string) (value : Z).

(** - [conns]: the [sqlite3.Connection] objects, named by their index;
    - [heap]: the trace contexts, named by their index;
    - [clock], [ticks]: the readings of [time.time()], and how many were taken;
    - [uuids], [drawn]: the values of [uuid.uuid4()], and how many were drawn;
    - [faults], [ops]: which operations of the storage backend fail, and how
      many operations were run;
    - [log]: the calls made so far, each with the exception it raised. *)
Record world : Type := {
  conns : list Connection;
  heap : list SimpleNamespace;
  clock : nat → float;
  ticks : nat;
  uuids : nat → N;
  drawn : nat;
  faults : nat → option fault;
  ops : nat;
  log : list (call * option exception)
}.

Definition set_conns (f : list Connection → list Connection) (w : world) : world :=
  {| conns := f (conns w); heap := heap w; clock := clock w; ticks := ticks w;
     uuids := uuids w; drawn := drawn w; faults := faults w; ops := ops w;
     log := log w |}.
Definition set_heap (f : list SimpleNamespace → list SimpleNamespace) (w : world) : world :=
  {| conns := conns w; heap := f (heap w); clock := clock w; ticks := ticks w;
     uuids := uuids w; drawn := drawn w; faults := faults w; ops := ops w;
     log := log w |}.
Definition tick (w : world) : world :=
  {| conns := conns w; heap := heap w; clock := clock w; ticks := S (ticks w);
     uuids := uuids w; drawn := drawn w; faults := faults w; ops := ops w;
     log := log w |}.
Definition draw (w : world) : world :=
  {| conns := conns w; heap := heap w; clock := clock w; ticks := ticks w;
     uuids := uuids w; drawn := S (drawn w); faults := faults w; ops := ops w;
     log := log w |}.
Definition count_op (w : world) : world :=
  {| conns := conns w; heap := heap w; clock := clock w; ticks := ticks w;
     uuids := uuids w; drawn := drawn w; faults := faults w; ops := S (ops w);
     log := log w |}.
Definition record_call (c : call) (e : option exception) (w : world) : world :=
  {| conns := conns w; heap := heap w; clock := clock w; ticks := ticks w;
     uuids := uuids w; drawn := drawn w; faults := faults w; ops := ops w;
     log := log w ++ [(c, e)] |}.

(** ** The monad of effects: a state, and [Return] or [Raise] *)

Inductive outcome (A : Type) : Type :=
| Return (a : A)
| Raise (e : exception).
Arguments Return {A} a.
Arguments Raise {A} e.

Definition M (A : Type) : Type := world → outcome A * world.

#[global] Instance M_ret : MRet M := λ A a w, (Return a, w).
#[global] Instance M_bind : MBind M := λ A B f m w,
  match m w with
  | (Return a, w') => f a w'
  | (Raise e, w') => (Raise e, w')
  end.

Definition raise {A} (e : exception) : M A := λ w, (Raise e, w).

(** [time.time()]. *)
Module time.
Definition time : M float := λ w, (Return (clock w (ticks w)), tick w).
End time.

(** [uuid.uuid4()], a 128-bit value, and [UUID.hex], its 32 digits. *)
Module uuid.
Definition uuid4 : M N := λ w, (Return (uuids w (drawn w) mod 2 ^ 128), draw w).
Definition hex (u : N) : str := hex_digits 32 u.
End uuid.

(** *** Operations of a connection *)

Definition closed_database : exception :=
  ProgrammingError "Cannot operate on a closed database.".
Definition no_such_table (name : string) : exception :=
  OperationalError ("no such table: " +:+ name).
Definition dangling (what : string) : exception :=
  ReferenceError what.

(** What a fault leaves of the connection. *)
Definition after_fault (f : fault) (c : Connection) : Connection :=
  if fault_rolls_back f
  then {| durable := durable c; working := durable c;
          in_transaction := false; closed := closed c |}
  else c.

(** The body shared by the operations on a connection: [conn] must name a
    connection that is open; the backend may fail (the next entry of
    [faults]); otherwise [run] gives the exception or the new connection and
    the result. *)
Definition on_connection {A} (conn : nat) (what : call)
    (run : Connection → exception + Connection * A) : M A := λ w,
  match conns w !! conn with
  | None => (Raise (dangling "connection"), w)
  | Some c =>
      if closed c then (Raise closed_database, record_call what (Some closed_database) w)
      else
        match faults w (ops w) with
        | Some f =>
            (Raise (fault_exception f),
             record_call what (Some (fault_exception f))
               (count_op (set_conns (<[conn := after_fault f c]>) w)))
        | None =>
            match run c with
            | inl e => (Raise e, record_call what (Some e) (count_op w))
            | inr (c', a) =>
                (Return a,
                 record_call what None (count_op (set_conns (<[conn := c']>) w)))
            end
        end
  end.

(** [conn.execute(sql, parameters)] for an INSERT. *)
Definition Connection_execute (conn : nat) (sql : statement) : M Cursor :=
  on_connection conn (call_execute conn sql) (λ c,
    if table_exists (statement_table sql) (working c) then
      let '(db, rowid) := insert_row sql (working c) in
      inr ({| durable := durable c; working := db;
              in_transaction := true; closed := closed c |},
           {| lastrowid := rowid |})
    else inl (no_such_table (statement_table sql))).

(** [conn.commit()]: nothing to do when no transaction is open. *)
Definition Connection_commit (conn : nat) : M unit := λ w,
  match conns w !! conn with
  | None => (Raise (dangling "connection"), w)
  | Some c =>
      if closed c then
        (Raise closed_database, record_call (call_commit conn) (Some closed_database) w)
      else if in_transaction c then
        on_connection conn (call_commit conn) (λ c,
          inr ({| durable := working c; working := working c;
                  in_transaction := false; closed := closed c |}, tt)) w
      else (Return tt, record_call (call_commit conn) None w)
  end.

(** One statement of a script, run in autocommit mode. *)
Definition run_create_table (conn : nat) (ddl : create_table) : M unit :=
  on_connection conn (call_create_table conn ddl) (λ c,
    let db := create_table_if_not_exists ddl (working c) in
    inr ({| durable := db; working := db;
            in_transaction := false; closed := closed c |}, tt)).

(** [conn.executescript(script)]: commit the open transaction, if any, then
    run the statements one by one; the first failure ends the script. *)
Definition Connection_executescript (conn : nat) (script : list create_table) : M unit :=
  Connection_commit conn;;
  foldr (λ ddl rest, run_create_table conn ddl;; rest) (mret tt) script.

(** [sqlite3.connect(path)] on a path that holds no database yet, and
    [conn.close()] (uncommitted rows are lost).  The recorder calls neither;
    its caller does. *)
Definition sqlite3_connect : M nat := λ w,
  let conn := length (conns w) in
  (Return conn,
   record_call (call_connect conn) None
     (set_conns (λ cs, cs ++ [{| durable := empty_database; working := empty_database;
                                in_transaction := false; closed := false |}]) w)).

Definition Connection_close (conn : nat) : M unit := λ w,
  match conns w !! conn with
  | None => (Raise (dangling "connection"), w)
  | Some c =>
      (Return tt,
       record_call (call_close conn) None
         (set_conns (<[conn := {| durable := durable c; working := durable c;
                                  in_transaction := false; closed := true |}]>) w))
  end.

(** *** Attributes of a trace context *)

(** A new object on the heap; its name is returned. *)
Definition new_object (ns : SimpleNamespace) : M nat := λ w,
  (Return (length (heap w)), set_heap (λ h, h ++ [ns]) w).

Definition getattr {A} (ctx : nat) (attribute : SimpleNamespace → A) : M A := λ w,
  match heap w !! ctx with
  | Some ns => (Return (attribute ns), w)
  | None => (Raise (dangling "context"), w)
  end.

Definition set_request_chunk_index (v : Z) (ns : SimpleNamespace) : SimpleNamespace :=
  {| request_id := request_id ns; started := started ns;
     request_chunk_index := v; response_chunk_index := response_chunk_index ns |}.
Definition set_response_chunk_index (v : Z) (ns : SimpleNamespace) : SimpleNamespace :=
  {| request_id := request_id ns; started := started ns;
     request_chunk_index := request_chunk_index ns; response_chunk_index := v |}.

Definition setattr (ctx : nat) (attribute : string)
    (set : Z → SimpleNamespace → SimpleNamespace) (v : Z) : M unit := λ w,
  match heap w !! ctx with
  | Some ns =>
      (Return tt,
       record_call (call_setattr ctx attribute v) None
         (set_heap (<[ctx := set v ns]>) w))
  | None => (Raise (dangling "context"), w)
  end.

(** ** The module [examples/sqlite_trace.py] *)

Definition col (name : string) (ty : sqltype) (not_null : bool) : column :=
  {| col_name := name; col_type := ty; col_not_null := not_null;
     col_primary_key_autoincrement := false; col_references := None |}.

Definition event_id_column : column :=
  {| col_name := "event_id"; col_type := INTEGER; col_not_null := true;
     col_primary_key_autoincrement := false;
     col_references := Some ("events", "id") |}.

(** The script of [init_sqlite]. *)
Definition schema_script : list create_table :=
  [ {| ct_name := "events";
       ct_columns :=
         [ {| col_name := "id"; col_type := INTEGER; col_not_null := false;
              col_primary_key_autoincrement := true; col_references := None |};
           col "ts" REAL true;
           col "request_id" TEXT true;
           col "event_type" TEXT true ] |};
    {| ct_name := "request_start";
       ct_columns :=
         [ event_id_column; col "method" TEXT true; col "url" TEXT true;
           col "headers" TEXT true ] |};
    {| ct_name := "request_end";
       ct_columns :=
         [ event_id_column; col "status" INTEGER true; col "reason" TEXT false;
           col "headers" TEXT true; col "elapsed" REAL true ] |};
    {| ct_name := "request_exception";
       ct_columns := [ event_id_column; col "exception" TEXT true ] |};
    {| ct_name := "request_chunk";
       ct_columns :=
         [ event_id_column; col "chunk_index" INTEGER true;
           col "size" INTEGER true; col "payload" BLOB true ] |};
    {| ct_name := "response_chunk";
       ct_columns :=
         [ event_id_column; col "chunk_index" INTEGER true;
           col "size" INTEGER true; col "payload" BLOB true ] |} ].

(** [init_sqlite(conn)]. *)
Definition init_sqlite (conn : nat) : M unit :=
  Connection_executescript conn schema_script;;
  Connection_commit conn.

(** [_insert_event(conn, request_id, event_type)]. *)
Definition _insert_event (conn : nat) (request_id event_type : str) : M Z :=
  now ← time.time;
  cur ← Connection_execute conn (INSERT_INTO_events now request_id event_type);
  mret (lastrowid cur).

(** [SQLiteTraceRecorder._ctx_factory()]: a new context object. *)
Definition _ctx_factory : M nat :=
  u ← uuid.uuid4;
  now ← time.time;
  new_object {| request_id := uuid.hex u; started := now;
                request_chunk_index := 0; response_chunk_index := 0 |}.

(** The handlers; [self_conn] is [self._conn]. *)
Definition _on_request_start (self_conn : nat)
    (session : ClientSession) (ctx : nat) (params : TraceRequestStartParams) : M unit :=
  rid ← getattr ctx request_id;
  event_id ← _insert_event self_conn rid (py "request_start");
  Connection_execute self_conn
    (INSERT_INTO_request_start event_id
       (start_method params)
       (URL_str (start_url params))
       (_serialize_headers (start_headers params)));;
  Connection_commit self_conn.

Definition _on_request_end (self_conn : nat)
    (session : ClientSession) (ctx : nat) (params : TraceRequestEndParams) : M unit :=
  now ← time.time;
  t0 ← getattr ctx started;
  let elapsed := PrimFloat.sub now t0 in
  rid ← getattr ctx request_id;
  event_id ← _insert_event self_conn rid (py "request_end");
  let response := end_response params in
  Connection_execute self_conn
    (INSERT_INTO_request_end event_id
       (status response)
       (reason response)
       (_serialize_headers (response_headers response))
       elapsed);;
  Connection_commit self_conn.

Definition _on_request_exception (self_conn : nat)
    (session : ClientSession) (ctx : nat) (params : TraceRequestExceptionParams) : M unit :=
  rid ← getattr ctx request_id;
  event_id ← _insert_event self_conn rid (py "request_exception");
  Connection_execute self_conn
    (INSERT_INTO_request_exception event_id (exc_repr (exc_exception params)));;
  Connection_commit self_conn.

Definition _on_request_chunk_sent (self_conn : nat)
    (session : ClientSession) (ctx : nat) (params : TraceRequestChunkSentParams) : M unit :=
  rid ← getattr ctx request_id;
  event_id ← _insert_event self_conn rid (py "request_chunk");
  index ← getattr ctx request_chunk_index;
  Connection_execute self_conn
    (INSERT_INTO_request_chunk event_id index
       (len (sent_chunk params)) (sent_chunk params));;
  index ← getattr ctx request_chunk_index;
  setattr ctx "request_chunk_index" set_request_chunk_index (index + 1)%Z;;
  Connection_commit self_conn.

Definition _on_response_chunk_received (self_conn : nat)
    (session : ClientSession) (ctx : nat)
    (params : TraceResponseChunkReceivedParams) : M unit :=
  rid ← getattr ctx request_id;
  event_id ← _insert_event self_conn rid (py "response_chunk");
  index ← getattr ctx response_chunk_index;
  Connection_execute self_conn
    (INSERT_INTO_response_chunk event_id index
       (len (received_chunk params)) (received_chunk params));;
  index ← getattr ctx response_chunk_index;
  setattr ctx "response_chunk_index" set_response_chunk_index (index + 1)%Z;;
  Connection_commit self_conn.

(** Modelled from the spec: the hook registry of the host client
    ([aiohttp.TraceConfig] is not among the sources): a context factory and,
    for each of the five hook points, the list of the handlers registered on
    it.  A bound method [self._on_x] is the handler applied to [self._conn]. *)
Record TraceConfig : Type := {
  trace_config_ctx_factory : M nat;
  on_request_start :
    list (ClientSession → nat → TraceRequestStartParams → M unit);
  on_request_end :
    list (ClientSession → nat → TraceRequestEndParams → M unit);
  on_request_exception :
    list (ClientSession → nat → TraceRequestExceptionParams → M unit);
  on_request_chunk_sent :
    list (ClientSession → nat → TraceRequestChunkSentParams → M unit);
  on_response_chunk_received :
    list (ClientSession → nat → TraceResponseChunkReceivedParams → M unit)
}.

(** [TraceConfig(trace_config_ctx_factory=f)]: no handler registered yet. *)
Definition TraceConfig_new (f : M nat) : TraceConfig :=
  {| trace_config_ctx_factory := f;
     on_request_start := []; on_request_end := []; on_request_exception := [];
     on_request_chunk_sent := []; on_response_chunk_received := [] |}.

Record SQLiteTraceRecorder : Type := {
  _conn : nat;
  trace_config : TraceConfig
}.

(** [SQLiteTraceRecorder.__init__(self, conn)]: each [append] adds one
    handler at the end of the list of its hook. *)
Definition SQLiteTraceRecorder_init (conn : nat) : SQLiteTraceRecorder :=
  let tc0 := TraceConfig_new _ctx_factory in
  let tc1 :=
    {| trace_config_ctx_factory := trace_config_ctx_factory tc0;
       on_request_start := on_request_start tc0 ++ [_on_request_start conn];
       on_request_end := on_request_end tc0;
       on_request_exception := on_request_exception tc0;
       on_request_chunk_sent := on_request_chunk_sent tc0;
       on_response_chunk_received := on_response_chunk_received tc0 |} in
  let tc2 :=
    {| trace_config_ctx_factory := trace_config_ctx_factory tc1;
       on_request_start := on_request_start tc1;
       on_request_end := on_request_end tc1 ++ [_on_request_end conn];
       on_request_exception := on_request_exception tc1;
       on_request_chunk_sent := on_request_chunk_sent tc1;
       on_response_chunk_received := on_response_chunk_received tc1 |} in
  let tc3 :=
    {| trace_config_ctx_factory := trace_config_ctx_factory tc2;
       on_request_start := on_request_start tc2;
       on_request_end := on_request_end tc2;
       on_request_exception := on_request_exception tc2 ++ [_on_request_exception conn];
       on_request_chunk_sent := on_request_chunk_sent tc2;
       on_response_chunk_received := on_response_chunk_received tc2 |} in
  let tc4 :=
    {| trace_config_ctx_factory := trace_config_ctx_factory tc3;
       on_request_start := on_request_start tc3;
       on_request_end := on_request_end tc3;
       on_request_exception := on_request_exception tc3;
       on_request_chunk_sent := on_request_chunk_sent tc3 ++ [_on_request_chunk_sent conn];
       on_response_chunk_received := on_response_chunk_received tc3 |} in
  let tc5 :=
    {| trace_config_ctx_factory := trace_config_ctx_factory tc4;
       on_request_start := on_request_start tc4;
       on_request_end := on_request_end tc4;
       on_request_exception := on_request_exception tc4;
       on_request_chunk_sent := on_request_chunk_sent tc4;
       on_response_chunk_received :=
         on_response_chunk_received tc4 ++ [_on_response_chunk_received conn] |} in
  {| _conn := conn; trace_config := tc5 |}.

(** Modelled from the spec: how the host client fires a hook: the handlers
    registered on it run in order on the live context; an exception of one
    of them propagates to the host. *)
Definition send {P} (handlers : list (ClientSession → nat → P → M unit))
    (session : ClientSession) (ctx : nat) (params : P) : M unit :=
  foldr (λ h rest, h session ctx params;; rest) (mret tt) handlers.

(** The five lifecycle events of a request, as the host reports them. *)
Inductive lifecycle_event : Type :=
| RequestStart (ctx : nat) (params : TraceRequestStartParams)
| RequestEnd (ctx : nat) (params : TraceRequestEndParams)
| RequestException (ctx : nat) (params : TraceRequestExceptionParams)
| RequestChunkSent (ctx : nat) (params : TraceRequestChunkSentParams)
| ResponseChunkReceived (ctx : nat) (params : TraceResponseChunkReceivedParams).

Definition event_ctx (ev : lifecycle_event) : nat :=
  match ev with
  | RequestStart ctx _ | RequestEnd ctx _ | RequestException ctx _
  | RequestChunkSent ctx _ | ResponseChunkReceived ctx _ => ctx
  end.

Definition fire (tc : TraceConfig) (ev : lifecycle_event) : M unit :=
  match ev with
  | RequestStart ctx params => send (on_request_start tc) client_session ctx params
  | RequestEnd ctx params => send (on_request_end tc) client_session ctx params
  | RequestException ctx params => send (on_request_exception tc) client_session ctx params
  | RequestChunkSent ctx params => send (on_request_chunk_sent tc) client_session ctx params
  | ResponseChunkReceived ctx params =>
      send (on_response_chunk_received tc) client_session ctx params
  end.

(** What the host does, one step at a time: it begins a request (the
    context factory is called once, before any handler of that request), or
    it reports an event of a request. *)
Inductive host_action : Type :=
| NewRequest
| Fire (ev : lifecycle_event).

Definition host_step (tc : TraceConfig) (a : host_action) : M unit :=
  match a with
  | NewRequest => trace_config_ctx_factory tc;; mret tt
  | Fire ev => fire tc ev
  end.

(** A run of the host: the steps one after the other; a step whose handler
    raised does not stop the steps after it. *)
Fixpoint run (tc : TraceConfig) (acts : list host_action) (w : world)
    : list (outcome unit) * world :=
  match acts with
  | [] => ([], w)
  | a :: acts' =>
      let '(o, w1) := host_step tc a w in
      let '(os, w2) := run tc acts' w1 in
      (o :: os, w2)
  end.

(** The handler of the recorder on [conn] that the event [ev] invokes,
    applied to the context and the parameters of the event. *)
Definition handler (conn : nat) (ev : lifecycle_event) : M unit :=
  match ev with
  | RequestStart ctx params => _on_request_start conn client_session ctx params
  | RequestEnd ctx params => _on_request_end conn client_session ctx params
  | RequestException ctx params => _on_request_exception conn client_session ctx params
  | RequestChunkSent ctx params => _on_request_chunk_sent conn client_session ctx params
  | ResponseChunkReceived ctx params =>
      _on_response_chunk_received conn client_session ctx params
  end.

(** The invocations of the module's code, one after the other: the context
    factory for a new request, the handler for an event; an invocation that
    raised does not stop the ones after it. *)
Definition invoke (conn : nat) (a : host_action) : M unit :=
  match a with
  | NewRequest => _ctx_factory;; mret tt
  | Fire ev => handler conn ev
  end.

Fixpoint invocations (conn : nat) (acts : list host_action) (w : world)
    : list (outcome unit) * world :=
  match acts with
  | [] => ([], w)
  | a :: acts' =>
      let '(o, w1) := invoke conn a w in
      let '(os, w2) := invocations conn acts' w1 in
      (o :: os, w2)
  end.

(** [init_sqlite] called [n] times in a row. *)
Fixpoint init_sqlite_times (n : nat) (conn : nat) : M unit :=
  match n with
  | O => mret tt
  | S n' => init_sqlite conn;; init_sqlite_times n' conn
  end.

(** ** Vocabulary of the statements *)

(** The tables of the module exist. *)
Definition schema_tables : list string := ct_name <$> schema_script.

Definition has_schema (db : database) : bool :=
  forallb (λ name, table_exists name db) schema_tables.

(** The storage backend does not fail at its next [n] operations. *)
Definition no_fault (w : world) (n : nat) : Prop :=
  ∀ k, (k < n)%nat → faults w (ops w + k)%nat = None.

(** The kind of an event, which is also the name of its detail table. *)
Definition event_kind (ev : lifecycle_event) : string :=
  match ev with
  | RequestStart _ _ => "request_start"
  | RequestEnd _ _ => "request_end"
  | RequestException _ _ => "request_exception"
  | RequestChunkSent _ _ => "request_chunk"
  | ResponseChunkReceived _ _ => "response_chunk"
  end.

(** The clock readings a handler takes: the end handler reads the clock
    once for the elapsed time and once more for the event row. *)
Definition readings (ev : lifecycle_event) : nat :=
  match ev with
  | RequestEnd _ _ => 2
  | _ => 1
  end.

Definition event_ts (ev : lifecycle_event) (w : world) : float :=
  match ev with
  | RequestEnd _ _ => clock w (S (ticks w))
  | _ => clock w (ticks w)
  end.

(** The row of [events] that the handler of [ev] inserts for the context
    [ns] in the world [w], and the detail statement that follows it. *)
Definition event_statement (ev : lifecycle_event) (ns : SimpleNamespace) (w : world)
    : statement :=
  INSERT_INTO_events (event_ts ev w) (request_id ns) (py (event_kind ev)).

Definition detail_statement (ev : lifecycle_event) (ns : SimpleNamespace) (w : world)
    (event_id : Z) : statement :=
  match ev with
  | RequestStart _ params =>
      INSERT_INTO_request_start event_id (start_method params)
        (URL_str (start_url params)) (_serialize_headers (start_headers params))
  | RequestEnd _ params =>
      INSERT_INTO_request_end event_id (status (end_response params))
        (reason (end_response params))
        (_serialize_headers (response_headers (end_response params)))
        (PrimFloat.sub (clock w (ticks w)) (started ns))
  | RequestException _ params =>
      INSERT_INTO_request_exception event_id (exc_repr (exc_exception params))
  | RequestChunkSent _ params =>
      INSERT_INTO_request_chunk event_id (request_chunk_index ns)
        (len (sent_chunk params)) (sent_chunk params)
  | ResponseChunkReceived _ params =>
      INSERT_INTO_response_chunk event_id (response_chunk_index ns)
        (len (received_chunk params)) (received_chunk params)
  end.

(** The counter a chunk handler increments; the other handlers set nothing. *)
Definition counter_update (ev : lifecycle_event) (ns : SimpleNamespace)
    : option (string * Z) :=
  match ev with
  | RequestChunkSent _ _ => Some ("request_chunk_index", request_chunk_index ns + 1)%Z
  | ResponseChunkReceived _ _ => Some ("response_chunk_index", response_chunk_index ns + 1)%Z
  | _ => None
  end.

Definition ctx_after (ev : lifecycle_event) (ns : SimpleNamespace) : SimpleNamespace :=
  match ev with
  | RequestChunkSent _ _ => set_request_chunk_index (request_chunk_index ns + 1) ns
  | ResponseChunkReceived _ _ => set_response_chunk_index (response_chunk_index ns + 1) ns
  | _ => ns
  end.

(** The calls of a handler in the order it makes them when nothing fails. *)
Definition handler_calls (ev : lifecycle_event) (conn : nat) (ns : SimpleNamespace)
    (w : world) (event_id : Z) : list call :=
  [call_execute conn (event_statement ev ns w);
   call_execute conn (detail_statement ev ns w event_id)]
  ++ match counter_update ev ns with
     | Some (attribute, v) => [call_setattr (event_ctx ev) attribute v]
     | None => []
     end
  ++ [call_commit conn].

(** The [event_id] column of a detail table. *)
Definition detail_event_ids (table : string) (db : database) : list Z :=
  if decide (table = "request_start") then rs_event_id <$> request_start db
  else if decide (table = "request_end") then re_event_id <$> request_end db
  else if decide (table = "request_exception") then rx_event_id <$> request_exception db
  else if decide (table = "request_chunk") then ck_event_id <$> request_chunk db
  else if decide (table = "response_chunk") then ck_event_id <$> response_chunk db
  else [].

(** The correlation id of the event a detail row refers to. *)
Definition request_id_of_event (db : database) (event_id : Z) : option str :=
  ev_request_id <$> List.find (λ e, bool_decide (ev_id e = event_id)) (events db).

(** The [chunk_index] column of the rows of a chunk table that belong to the
    correlation id [rid], in insertion order. *)
Definition chunk_indices (db : database) (rows : list chunk_row) (rid : str) : list Z :=
  ck_chunk_index <$>
    filter (λ row, request_id_of_event db (ck_event_id row) = Some rid) rows.

(** Every chunk row refers to a row of [events]. *)
Definition references_events (db : database) : Prop :=
  ∀ row, row ∈ request_chunk db ++ response_chunk db →
         ck_event_id row ∈ (ev_id <$> events db).

(** How many events of a direction a run reports for the context [ctx]. *)
Definition is_sent (ctx : nat) (a : host_action) : bool :=
  match a with
  | Fire (RequestChunkSent ctx' _) => bool_decide (ctx' = ctx)
  | _ => false
  end.
Definition is_received (ctx : nat) (a : host_action) : bool :=
  match a with
  | Fire (ResponseChunkReceived ctx' _) => bool_decide (ctx' = ctx)
  | _ => false
  end.

Definition count_sent (ctx : nat) (acts : list host_action) : Z :=
  len (List.filter (is_sent ctx) acts).
Definition count_received (ctx : nat) (acts : list host_action) : Z :=
  len (List.filter (is_received ctx) acts).

(** The storage backend never fails. *)
Definition healthy (w : world) : Prop := ∀ n, faults w n = None.

(** Every table of [db1] is a beginning of the table of [db2]: rows were
    appended, none was changed or removed. *)
Definition database_le (db1 db2 : database) : Prop :=
  db_schema db1 `prefix_of` db_schema db2 ∧
  events db1 `prefix_of` events db2 ∧
  request_start db1 `prefix_of` request_start db2 ∧
  request_end db1 `prefix_of` request_end db2 ∧
  request_exception db1 `prefix_of` request_exception db2 ∧
  request_chunk db1 `prefix_of` request_chunk db2 ∧
  response_chunk db1 `prefix_of` response_chunk db2.

(** The calls added to the log between two worlds. *)
Definition new_calls (w w' : world) : list (call * option exception) :=
  drop (length (log w)) (log w').

(** The row of [events] that the handler of [ev] inserts. *)
Definition event_row (ev : lifecycle_event) (ns : SimpleNamespace) (w : world)
    (event_id : Z) : events_row :=
  {| ev_id := event_id; ev_ts := event_ts ev w;
     ev_request_id := request_id ns; ev_event_type := py (event_kind ev) |}.

(** ** Vocabulary of the proofs *)

(** The world a handler leaves when nothing fails. *)
Definition recorded (ev : lifecycle_event) (conn : nat) (c : Connection)
    (ns : SimpleNamespace) (w w' : world) : Prop :=
  let event_id := next_event_id (working c) in
  let db1 := (insert_row (event_statement ev ns w) (working c)).1 in
  let db2 := (insert_row (detail_statement ev ns w event_id) db1).1 in
  conns w' = <[conn := {| durable := db2; working := db2;
                          in_transaction := false; closed := false |}]> (conns w) ∧
  heap w' = <[event_ctx ev := ctx_after ev ns]> (heap w) ∧
  log w' = log w ++ ((λ c, (c, None)) <$> handler_calls ev conn ns w event_id) ∧
  ticks w' = (ticks w + readings ev)%nat ∧
  ops w' = (ops w + 3)%nat ∧
  clock w' = clock w ∧ uuids w' = uuids w ∧ drawn w' = drawn w ∧ faults w' = faults w.

(** A relation between the world before and the world after that every run
    of [m] establishes, whether [m] returns or raises. *)
Definition preserves {A} (R : relation world) (m : M A) : Prop := ∀ w, R w (m w).2.

(** The clock, the source of UUIDs, the faults to come, and the identity
    and start time of every context. *)
Definition same_sources (w w' : world) : Prop :=
  clock w' = clock w ∧ uuids w' = uuids w ∧ drawn w' = drawn w ∧ faults w' = faults w ∧
  request_id <$> heap w' = request_id <$> heap w ∧
  started <$> heap w' = started <$> heap w.

(** The heap of contexts. *)
Definition same_heap (w w' : world) : Prop := heap w' = heap w.

(** Opening and closing: the connections that exist, which of them are
    closed, every connection but [conn], and no call to [connect] or [close]. *)
Definition lifecycle_call (c : call) : bool :=
  match c with
  | call_connect _ | call_close _ => true
  | _ => false
  end.

Definition same_handles (conn : nat) (w w' : world) : Prop :=
  closed <$> conns w' = closed <$> conns w ∧
  (∀ i, i ≠ conn → conns w' !! i = conns w !! i) ∧
  ∃ new, log w' = log w ++ new ∧ Forall (λ x, lifecycle_call x.1 = false) new.

(** The committed rows: a connection whose pending rows extend its
    committed ones stays so, and its committed tables only grow; the tables
    of the module, once created, stay. *)
Definition conn_wf (c : Connection) : Prop := database_le (durable c) (working c).

Definition has_tables (c : Connection) : Prop :=
  has_schema (durable c) = true ∧ has_schema (working c) = true.

Definition conn_step (c c' : Connection) : Prop :=
  closed c' = closed c ∧
  (conn_wf c → conn_wf c' ∧ database_le (durable c) (durable c')) ∧
  (has_tables c → has_tables c').

Definition storage_kept (w w' : world) : Prop :=
  length (conns w') = length (conns w) ∧
  ∀ i c c', conns w !! i = Some c → conns w' !! i = Some c' → conn_step c c'.

(** No call of [new] raised. *)
Definition clean (new : list (call * option exception)) : Prop :=
  Forall (λ x, x.2 = None) new.

(** The calls a run adds to the log raised nothing, except the last one
    when the run raises: then the run raises that exception. *)
Definition ends_with {A} (o : outcome A) (new : list (call * option exception)) : Prop :=
  match o with
  | Return _ => clean new
  | Raise e => clean new ∨ ∃ pre c, new = pre ++ [(c, Some e)] ∧ clean pre
  end.

Definition propagates {A} (m : M A) : Prop :=
  ∀ w, ∃ new, log (m w).2 = log w ++ new ∧ ends_with (m w).1 new.

(** Only INSERTs on [conn] were attempted, and no context was written. *)
Definition is_execute (conn : nat) (x : call * option exception) : Prop :=
  ∃ sql, x.1 = call_execute conn sql.

Definition inserting (conn : nat) (w w' : world) : Prop :=
  heap w' = heap w ∧ ∃ new, log w' = log w ++ new ∧ Forall (is_execute conn) new.

(** The two chunk events. *)
Definition chunk_event (ev : lifecycle_event) : bool :=
  match ev with
  | RequestChunkSent _ _ | ResponseChunkReceived _ _ => true
  | _ => false
  end.

(** Either a lookup or an INSERT raises: then only INSERTs were attempted and
    no counter was written; or both INSERTs succeed: then the counter is
    written, the commit is attempted, and the handler ends as the commit does. *)
Definition chunk_steps (conn : nat) (ev : lifecycle_event) (w : world)
    (r : outcome unit * world) : Prop :=
  (∃ e, r.1 = Raise e ∧ inserting conn w r.2) ∨
  (∃ c ns o,
     conns w !! conn = Some c ∧ heap w !! event_ctx ev = Some ns ∧
     heap r.2 = <[event_ctx ev := ctx_after ev ns]> (heap w) ∧
     fst <$> new_calls w r.2 = handler_calls ev conn ns w (next_event_id (working c)) ∧
     snd <$> new_calls w r.2 = [None; None; None; o] ∧
     r.1 = match o with None => Return tt | Some e => Raise e end).

(** The rows one INSERT adds to [events] and to the two chunk tables. *)
Definition new_events (sql : statement) (db : database) : list events_row :=
  match sql with
  | INSERT_INTO_events ts rid kind =>
      [{| ev_id := next_event_id db; ev_ts := ts; ev_request_id := rid;
          ev_event_type := kind |}]
  | _ => []
  end.
Definition new_request_chunks (sql : statement) : list chunk_row :=
  match sql with
  | INSERT_INTO_request_chunk id idx size payload =>
      [{| ck_event_id := id; ck_chunk_index := idx; ck_size := size; ck_payload := payload |}]
  | _ => []
  end.
Definition new_response_chunks (sql : statement) : list chunk_row :=
  match sql with
  | INSERT_INTO_response_chunk id idx size payload =>
      [{| ck_event_id := id; ck_chunk_index := idx; ck_size := size; ck_payload := payload |}]
  | _ => []
  end.

(** The chunk index that the handler of [ev] writes, per direction. *)
Definition sent_index (ev : lifecycle_event) (ns : SimpleNamespace) : list Z :=
  match ev with RequestChunkSent _ _ => [request_chunk_index ns] | _ => [] end.
Definition received_index (ev : lifecycle_event) (ns : SimpleNamespace) : list Z :=
  match ev with ResponseChunkReceived _ _ => [response_chunk_index ns] | _ => [] end.

(** The state of one context [k] with correlation id [rid] and of the
    connection: [a] sent chunks and [b] received chunks are recorded, with
    the indices from 0 on. *)
Inductive tracked (conn k : nat) (rid : str) (a b : Z) (w : world) : Prop :=
| Tracked (c : Connection) (ns : SimpleNamespace)
    (tr_lookup : conns w !! conn = Some c)
    (tr_open : closed c = false)
    (tr_schema : has_schema (working c) = true)
    (tr_committed : durable c = working c)
    (tr_refs : references_events (working c))
    (tr_ctx : heap w !! k = Some ns)
    (tr_rid : request_id ns = rid)
    (tr_sent : request_chunk_index ns = a)
    (tr_received : response_chunk_index ns = b)
    (tr_others : ∀ j ns', j ≠ k → heap w !! j = Some ns' → request_id ns' ≠ rid)
    (tr_request : chunk_indices (durable c) (request_chunk (durable c)) rid = seqZ 0 a)
    (tr_response : chunk_indices (durable c) (response_chunk (durable c)) rid = seqZ 0 b).

(** 1 when the step reports a chunk of that direction for the context [k]. *)
Definition sent_by (k : nat) (a : host_action) : Z := if is_sent k a then 1 else 0.
Definition received_by (k : nat) (a : host_action) : Z := if is_received k a then 1 else 0.

(** An open connection with nothing pending. *)
Definition settled (db : database) : Connection :=
  {| durable := db; working := db; in_transaction := false; closed := false |}.

(** The database after the statements of a script, and the statements of a
    script run on a connection. *)
Definition create_all (script : list create_table) (db : database) : database :=
  foldl (λ db ddl, create_table_if_not_exists ddl db) db script.

Definition run_script (conn : nat) (script : list create_table) : M unit :=
  foldr (λ ddl rest, run_create_table conn ddl;; rest) (mret tt) script.

(** The rows of every table. *)
Definition same_rows (db db' : database) : Prop :=
  events db' = events db ∧ events_sequence db' = events_sequence db ∧
  request_start db' = request_start db ∧ request_end db' = request_end db ∧
  request_exception db' = request_exception db ∧
  request_chunk db' = request_chunk db ∧ response_chunk db' = response_chunk db.

(** The UUID of the draw number [i]. *)
Definition uuid_at (w : world) (i : nat) : N := uuids w i mod 2 ^ 128.

(** The contexts were made by the factory, one per draw. *)
Definition ids_drawn (w : world) : Prop :=
  request_id <$> heap w = (λ i, uuid.hex (uuid_at w i)) <$> seq 0 (drawn w).

(** The UUIDs of the first [n] draws are pairwise distinct. *)
Definition distinct_draws (w : world) (n : nat) : Prop :=
  ∀ i j, (i < n)%nat → (j < n)%nat → uuid_at w i = uuid_at w j → i = j.

(** The requests a run begins. *)
Definition new_requests (acts : list host_action) : nat :=
  length (List.filter (λ a, match a with NewRequest => true | Fire _ => false end) acts).

(** The [event_id] that a statement writes to a detail table. *)
Definition detail_id (sql : statement) : list Z :=
  match sql with
  | INSERT_INTO_events _ _ _ => []
  | INSERT_INTO_request_start id _ _ _ | INSERT_INTO_request_end id _ _ _ _
  | INSERT_INTO_request_exception id _ | INSERT_INTO_request_chunk id _ _ _
  | INSERT_INTO_response_chunk id _ _ _ => [id]
  end.

(** ** An example process

    A process that has just started, and the set-up of the module's
    docstring: connect, create the tables, build the recorder; then the host
    begins a request.  The connection and the context are both named 0. *)
Definition new_process (times : nat → float) (failing : nat → option fault) : world :=
  {| conns := []; heap := []; clock := times; ticks := 0;
     uuids := λ n, N.of_nat n; drawn := 0; faults := failing; ops := 0; log := [] |}.

Definition set_up : M nat :=
  conn ← sqlite3_connect;
  init_sqlite conn;;
  trace_config_ctx_factory (trace_config (SQLiteTraceRecorder_init conn)).

Definition ready_world (times : nat → float) (failing : nat → option fault) : world :=
  (set_up (new_process times failing)).2.

Definition steady_clock (n : nat) : float :=
  match n with
  | O => 10
  | S O => 11
  | S (S O) => 12.5
  | _ => 13
  end%float.

(** A wall clock that is set back after the first reading. *)
Definition clock_set_back (n : nat) : float :=
  match n with
  | O => 2
  | _ => 1
  end%float.

Definition never : nat → option fault := λ _, None.

Definition database_is_locked : fault :=
  {| fault_exception := OperationalError "database is locked";
     fault_rolls_back := false |}.

(** The backend fails at its operation number [k] (from 0) and at no other. *)
Definition fails_at (k : nat) : nat → option fault :=
  λ n, if decide (n = k) then Some database_is_locked else None.

Definition example_chunk : bytes := [Byte.x68; Byte.x69].

Definition example_start : TraceRequestStartParams :=
  {| start_method := py "GET";
     start_url := {| URL_str := py "https://example.com" |};
     start_headers := [(py "Accept", py "*/*")] |}.

Definition example_end : TraceRequestEndParams :=
  {| end_response := {| status := 200; reason := Some (py "OK");
                        response_headers := [(py "Content-Length", py "2")] |} |}.

(* ===================================================================== *)
(** * Theorems *)

Example serialize_two :
  _serialize_headers [(py "Host", py "a.b"); (py "X", [34; 233; 0x1F600])]
  = py "[[" ++ [34] ++ py "Host" ++ [34] ++ py ", " ++ [34] ++ py "a.b" ++ [34]
    ++ py "], [" ++ [34] ++ py "X" ++ [34] ++ py ", " ++ [34]
    ++ py "\" ++ [34] ++ py "\u00e9\ud83d\ude00" ++ [34] ++ py "]]".
Proof. vm_compute. reflexivity. Qed.

(** ** Hexadecimal digits and surrogates

    [int_base16] reads back what [hex_digits] writes, and [join_surrogates]
    what [high_surrogate] and [low_surrogate] split. *)

Lemma hexval_hexdigit d : d < 16 → hexval (hexdigit d) = Some d.
Proof.
  intros Hd. unfold hexval, hexdigit.
  destruct (d <? 10) eqn:E.
  - apply N.ltb_lt in E.
    replace ((48 <=? 48 + d) && (48 + d <=? 57)) with true.
    + f_equal. lia.
    + symmetry. apply andb_true_iff. split; apply N.leb_le; lia.
  - apply N.ltb_ge in E.
    replace ((48 <=? 87 + d) && (87 + d <=? 57)) with false.
    + replace ((97 <=? 87 + d) && (87 + d <=? 102)) with true.
      * f_equal. lia.
      * symmetry. apply andb_true_iff. split; apply N.leb_le; lia.
    + symmetry. apply andb_false_iff. right. apply N.leb_gt. lia.
Qed.

Lemma foldl_snoc {A B} (f : A → B → A) a l x : foldl f a (l ++ [x]) = f (foldl f a l) x.
Proof. revert a. induction l as [|y l IH]; intros a; simpl; [done|apply IH]. Qed.

Lemma int_base16_hex_digits_acc w : ∀ n acc,
  foldl (fun acc c => a ← acc; d ← hexval c; Some (16 * a + d)) (Some acc) (hex_digits w n)
  = Some (acc * 16 ^ N.of_nat w + n mod 16 ^ N.of_nat w).
Proof.
  induction w as [|w IH]; intros n acc.
  - simpl. f_equal. rewrite N.mod_1_r. lia.
  - cbn [hex_digits]. rewrite foldl_snoc, IH. cbn [mbind option_bind].
    rewrite hexval_hexdigit by (apply N.mod_lt; lia). cbn [mbind option_bind].
    f_equal. rewrite Nat2N.inj_succ, N.pow_succ_r'.
    rewrite (N.Div0.mod_mul_r n 16 (16 ^ N.of_nat w)). lia.
Qed.

Lemma int_base16_hex_digits w n :
  n < 16 ^ N.of_nat w → int_base16 (hex_digits w n) = Some n.
Proof.
  intros Hn. unfold int_base16. rewrite int_base16_hex_digits_acc.
  f_equal. rewrite N.mod_small by done. lia.
Qed.

Lemma land_shiftl_small a b k : b < 2 ^ k → N.land (N.shiftl a k) b = 0.
Proof.
  intros Hb. apply N.bits_inj. intros i. rewrite N.land_spec, N.bits_0.
  destruct (N.lt_ge_cases i k) as [Hi|Hi].
  - rewrite N.shiftl_spec_low by done. done.
  - rewrite andb_false_iff. right.
    destruct (N.eq_dec b 0) as [->|Hnz]; [apply N.bits_0|].
    apply N.bits_above_log2. apply N.log2_lt_pow2; [lia|].
    eapply N.lt_le_trans; [exact Hb|]. apply N.pow_le_mono_r; lia.
Qed.

Lemma lor_shiftl_small a b k : b < 2 ^ k → N.lor (N.shiftl a k) b = a * 2 ^ k + b.
Proof.
  intros Hb. rewrite <- N.lxor_lor by (by apply land_shiftl_small).
  rewrite <- N.add_nocarry_lxor by (by apply land_shiftl_small).
  by rewrite N.shiftl_mul_pow2.
Qed.

Lemma high_surrogate_eq c : 0x10000 <= c → c < 0x110000 →
  json.high_surrogate c = 0xd800 + (c - 0x10000) / 1024.
Proof.
  intros H1 H2. unfold json.high_surrogate.
  change 0x3ff with (N.ones 10). rewrite N.land_ones, N.shiftr_div_pow2.
  change (2 ^ 10) with 1024.
  rewrite (N.mod_small (_ / 1024)) by (apply N.Div0.div_lt_upper_bound; lia).
  change 0xd800 with (N.shiftl 54 10) at 1. rewrite lor_shiftl_small.
  - change (54 * 2 ^ 10) with 0xd800. done.
  - change (2 ^ 10) with 1024. apply N.Div0.div_lt_upper_bound; lia.
Qed.

Lemma low_surrogate_eq c :
  json.low_surrogate c = 0xdc00 + (c - 0x10000) mod 1024.
Proof.
  unfold json.low_surrogate.
  change 0x3ff with (N.ones 10). rewrite N.land_ones.
  change (2 ^ 10) with 1024.
  change 0xdc00 with (N.shiftl 55 10) at 1. rewrite lor_shiftl_small.
  - done.
  - change (2 ^ 10) with 1024. apply N.mod_lt. lia.
Qed.

Lemma join_surrogates_eq c : 0x10000 <= c → c < 0x110000 →
  json.join_surrogates (json.high_surrogate c) (json.low_surrogate c) = c.
Proof.
  intros H1 H2. rewrite high_surrogate_eq, low_surrogate_eq by done.
  unfold json.join_surrogates.
  rewrite !(N.add_comm _ (_ / _)), !(N.add_comm _ (_ mod _)), !N.add_sub.
  rewrite lor_shiftl_small by (change (2 ^ 10) with 1024; apply N.mod_lt; lia).
  change (2 ^ 10) with 1024.
  pose proof (N.div_mod (c - 0x10000) 1024). lia.
Qed.

(** ** Reading back what the encoder writes

    [scanstring] is followed through the four ways the encoder writes a code
    point; a string without a surrogate pair is read back by induction, then
    a pair of strings, then a list of pairs. *)

Section json_round_trip.
Import json.

Lemma hex_digits_4 n :
  hex_digits 4 n = [hexdigit (n / 16 / 16 / 16 mod 16); hexdigit (n / 16 / 16 mod 16);
                    hexdigit (n / 16 mod 16); hexdigit (n mod 16)].
Proof. reflexivity. Qed.

Lemma scanstring_quote r : scanstring (34 :: r) = Some ([], r).
Proof. reflexivity. Qed.

Lemma scanstring_plain c r :
  ESCAPE_ASCII c = false → scanstring (c :: r) = prepend c (scanstring r).
Proof.
  unfold ESCAPE_ASCII. intros H.
  apply orb_false_iff in H as [H H3]. apply orb_false_iff in H as [H1 H2].
  apply negb_false_iff, andb_true_iff in H3 as [H3 H4].
  cbn [scanstring]. rewrite H1, H2.
  replace (c <? 32) with false; [done|].
  symmetry. apply N.ltb_ge. by apply N.leb_le.
Qed.

Lemma scanstring_backslash e ch r :
  e ≠ 117 → BACKSLASH e = Some ch →
  scanstring (92 :: e :: r) = prepend ch (scanstring r).
Proof.
  intros He Hb. cbn [scanstring]. change (92 =? 34) with false. change (92 =? 92) with true.
  cbn match. apply N.eqb_neq in He. rewrite He, Hb. done.
Qed.

Lemma scanstring_u h1 h2 h3 h4 r2 :
  scanstring (92 :: 117 :: h1 :: h2 :: h3 :: h4 :: r2) =
  match int_base16 [h1; h2; h3; h4] with
  | None => None
  | Some uni =>
      if is_high_surrogate uni then
        match escape_ahead r2 with
        | Some (ds, r3) =>
            match int_base16 ds with
            | None => None
            | Some uni2 =>
                if is_low_surrogate uni2
                then prepend (join_surrogates uni uni2) (scanstring r3)
                else prepend uni (scanstring r2)
            end
        | None => prepend uni (scanstring r2)
        end
      else prepend uni (scanstring r2)
  end.
Proof.
  cbn [scanstring]. change (92 =? 34) with false. change (92 =? 92) with true.
  change (117 =? 117) with true. cbn match.
  destruct (int_base16 [h1; h2; h3; h4]) as [uni|]; [|done].
  destruct (is_high_surrogate uni); [|done].
  destruct r2 as [|b [|u [|l1 [|l2 [|l3 [|l4 r3]]]]]]; try done.
  unfold escape_ahead. destruct ((b =? 92) && (u =? 117)); done.
Qed.

Lemma encode_char_cases c : encoding c (encode_char c).
Proof.
  unfold encode_char. destruct (ESCAPE_ASCII c) eqn:E; [|by constructor].
  unfold replace, ESCAPE_DCT.
  repeat match goal with
  | |- context [?a =? ?b] =>
      destruct (N.eqb_spec a b) as [->|?]; [by apply enc_short|]
  end.
  destruct (N.ltb_spec c 0x10000).
  - by apply enc_u.
  - by apply enc_pair.
Qed.

Lemma escape_ahead_head b r : b ≠ 92 → escape_ahead (b :: r) = None.
Proof.
  intros Hb. destruct r as [|u [|l1 [|l2 [|l3 [|l4 r3]]]]]; try done.
  cbn. apply N.eqb_neq in Hb. by rewrite Hb.
Qed.

Lemma escape_ahead_second b u r : u ≠ 117 → escape_ahead (b :: u :: r) = None.
Proof.
  intros Hu. destruct r as [|l1 [|l2 [|l3 [|l4 r3]]]]; try done.
  cbn. apply N.eqb_neq in Hu. by rewrite Hu, andb_false_r.
Qed.

Lemma high_surrogate_range c : 0x10000 <= c → c < 0x110000 →
  0xd800 <= high_surrogate c <= 0xdbff.
Proof.
  intros H1 H2. rewrite high_surrogate_eq by done.
  assert ((c - 0x10000) / 1024 < 1024) by (apply N.Div0.div_lt_upper_bound; lia).
  generalize dependent ((c - 0x10000) / 1024). intros; lia.
Qed.

Lemma low_surrogate_range c : 0xdc00 <= low_surrogate c <= 0xdfff.
Proof.
  rewrite low_surrogate_eq.
  assert ((c - 0x10000) mod 1024 < 1024) by (apply N.mod_lt; lia).
  generalize dependent ((c - 0x10000) mod 1024). intros; lia.
Qed.

Lemma is_high_high c : 0x10000 <= c → c < 0x110000 →
  is_high_surrogate (high_surrogate c) = true.
Proof.
  intros H1 H2. pose proof (high_surrogate_range c H1 H2).
  unfold is_high_surrogate. apply andb_true_iff; split; apply N.leb_le; lia.
Qed.

Lemma is_low_high c : 0x10000 <= c → c < 0x110000 →
  is_low_surrogate (high_surrogate c) = false.
Proof.
  intros H1 H2. pose proof (high_surrogate_range c H1 H2).
  unfold is_low_surrogate. apply andb_false_iff; left. apply N.leb_gt. lia.
Qed.

Lemma is_low_low c : is_low_surrogate (low_surrogate c) = true.
Proof.
  pose proof (low_surrogate_range c).
  unfold is_low_surrogate. apply andb_true_iff; split; apply N.leb_le; lia.
Qed.

Lemma int_base16_hex4 n : n < 0x10000 → int_base16 (hex_digits 4 n) = Some n.
Proof. intros Hn. by apply (int_base16_hex_digits 4). Qed.

Lemma not_low_ahead_encode c X :
  valid_code_point c = true → is_low_surrogate c = false →
  not_low_ahead (encode_char c ++ X).
Proof.
  intros Hv Hl. apply N.ltb_lt in Hv. unfold not_low_ahead.
  destruct (encode_char_cases c) as [c Hp|c e He Hb|c Hc|c Hc].
  - cbn [app]. rewrite escape_ahead_head; [done|].
    intros ->. done.
  - cbn [app]. by rewrite escape_ahead_second.
  - rewrite hex_digits_4. cbn [app escape_ahead]. change ((92 =? 92) && (117 =? 117)) with true.
    cbn match. rewrite <- hex_digits_4. exists c. by rewrite int_base16_hex4.
  - rewrite hex_digits_4. cbn [app escape_ahead]. change ((92 =? 92) && (117 =? 117)) with true.
    cbn match. rewrite <- hex_digits_4. exists (high_surrogate c).
    pose proof (high_surrogate_range c Hc Hv).
    rewrite int_base16_hex4 by lia. by rewrite is_low_high.
Qed.

Lemma not_low_ahead_quote rest : not_low_ahead (34 :: rest).
Proof. unfold not_low_ahead. by rewrite escape_ahead_head. Qed.

Lemma scanstring_u_single c r2 :
  c < 0x10000 → (is_high_surrogate c = true → not_low_ahead r2) →
  scanstring (92 :: 117 :: hex_digits 4 c ++ r2) = prepend c (scanstring r2).
Proof.
  intros Hc Hahead. rewrite hex_digits_4. cbn [app]. rewrite scanstring_u, <- hex_digits_4.
  rewrite int_base16_hex4 by done.
  destruct (is_high_surrogate c); [|done].
  specialize (Hahead eq_refl). unfold not_low_ahead in Hahead.
  destruct (escape_ahead r2) as [[ds r3]|]; [|done].
  destruct Hahead as (uni2 & -> & ->). done.
Qed.

Lemma scanstring_u_pair c r3 :
  0x10000 <= c → c < 0x110000 →
  scanstring (92 :: 117 :: hex_digits 4 (high_surrogate c)
              ++ 92 :: 117 :: hex_digits 4 (low_surrogate c) ++ r3)
  = prepend c (scanstring r3).
Proof.
  intros H1 H2. pose proof (high_surrogate_range c H1 H2). pose proof (low_surrogate_range c).
  rewrite (hex_digits_4 (high_surrogate c)). cbn [app]. rewrite scanstring_u, <- hex_digits_4.
  rewrite int_base16_hex4 by lia. rewrite is_high_high by done.
  rewrite (hex_digits_4 (low_surrogate c)). cbn [app escape_ahead].
  change ((92 =? 92) && (117 =? 117)) with true. cbn match. rewrite <- hex_digits_4.
  rewrite int_base16_hex4 by lia. rewrite is_low_low, join_surrogates_eq by done. done.
Qed.

Lemma scanstring_encode s : ∀ rest,
  valid_str s = true → no_surrogate_pair s = true →
  scanstring ((s ≫= encode_char) ++ 34 :: rest) = Some (s, rest).
Proof.
  induction s as [|c s IH]; intros rest Hv Hn; [done|].
  cbn [valid_str forallb] in Hv. apply andb_true_iff in Hv as [Hc Hv].
  cbn [no_surrogate_pair] in Hn. apply andb_true_iff in Hn as [Hcs Hn].
  specialize (IH rest Hv Hn).
  assert (Hahead : is_high_surrogate c = true →
                   not_low_ahead ((s ≫= encode_char) ++ 34 :: rest)).
  { intros Hhi. destruct s as [|c' s'].
    - apply not_low_ahead_quote.
    - cbn [valid_str forallb] in Hv. apply andb_true_iff in Hv as [Hc' _].
      rewrite Hhi in Hcs. cbn in Hcs. apply negb_true_iff in Hcs.
      change ((c' :: s') ≫= encode_char) with (encode_char c' ++ (s' ≫= encode_char)).
      rewrite <- app_assoc. by apply not_low_ahead_encode. }
  change ((c :: s) ≫= encode_char) with (encode_char c ++ (s ≫= encode_char)).
  rewrite <- app_assoc.
  destruct (encode_char_cases c) as [c Hp|c e He Hb|c Hlt|c Hge].
  - cbn [app]. rewrite scanstring_plain, IH by done. done.
  - cbn [app]. rewrite (scanstring_backslash e c), IH by done. done.
  - cbn [app]. rewrite scanstring_u_single, IH by done. done.
  - apply N.ltb_lt in Hc. cbn [app]. rewrite <- app_assoc. cbn [app].
    rewrite scanstring_u_pair, IH by done. done.
Qed.

Lemma skip_ws_stop c r : WHITESPACE c = false → skip_ws (c :: r) = c :: r.
Proof. intros H. cbn. by rewrite H. Qed.

Lemma scan_string_encode s rest :
  valid_str s = true → no_surrogate_pair s = true →
  scan_string (34 :: (s ≫= encode_char) ++ 34 :: rest) = Some (s, rest).
Proof.
  intros Hv Hn. cbn [scan_string]. change (34 =? 34) with true. cbn match.
  by apply scanstring_encode.
Qed.

Lemma encode_tuple_eq p rest :
  encode_tuple p ++ rest
  = 91 :: 34 :: (p.1 ≫= encode_char)
       ++ 34 :: 44 :: 32 :: 34 :: (p.2 ≫= encode_char) ++ 34 :: 93 :: rest.
Proof.
  unfold encode_tuple, iterencode_list, py_encode_basestring_ascii.
  cbn [mbind list_bind mapM app].
  rewrite app_nil_r. cbn [app]. rewrite <- !app_assoc. cbn [app].
  rewrite <- !app_assoc. done.
Qed.

Lemma scan_pair_encode p rest :
  pair_ok p → scan_pair (encode_tuple p ++ rest) = Some (p, rest).
Proof.
  intros (Hv1 & Hv2 & Hn1 & Hn2). rewrite encode_tuple_eq. unfold scan_pair.
  cbn [expect]. change (91 =? 91) with true. cbn [mbind option_bind].
  rewrite skip_ws_stop by done.
  rewrite scan_string_encode by done. cbn [mbind option_bind].
  rewrite skip_ws_stop by done. cbn [expect]. change (44 =? 44) with true.
  cbn [mbind option_bind].
  change (skip_ws (32 :: ?r)) with (skip_ws r).
  rewrite skip_ws_stop by done.
  rewrite scan_string_encode by done. cbn [mbind option_bind].
  rewrite skip_ws_stop by done. cbn [expect]. change (93 =? 93) with true.
  cbn [mbind option_bind]. by destruct p.
Qed.

Lemma skip_ws_stop_eq s r : s = 91 :: r → skip_ws s = s.
Proof. intros ->. done. Qed.

Lemma encode_tuple_head p rest : ∃ r, encode_tuple p ++ rest = 91 :: r.
Proof. rewrite encode_tuple_eq. eauto. Qed.

Ltac bind_some := change (Some ?x ≫= ?f) with (f x); cbn beta iota.

Lemma scan_items_encode ps : ∀ p fuel rest,
  Forall pair_ok (p :: ps) → (length ps < fuel)%nat →
  scan_items fuel (encode_tuple p ++ (ps ≫= fun y => 44 :: 32 :: encode_tuple y) ++ 93 :: rest)
  = Some (p :: ps, rest).
Proof.
  induction ps as [|q ps IH]; intros p fuel rest Hok Hfuel.
  - destruct fuel as [|fuel]; [lia|]. cbn [scan_items].
    apply Forall_cons_1 in Hok as [Hp _].
    rewrite scan_pair_encode by done. bind_some.
    change ([] ≫= ?f) with (@nil N). cbn [app].
    rewrite skip_ws_stop by done. done.
  - destruct fuel as [|fuel]; [cbn in Hfuel; lia|]. cbn [scan_items].
    apply Forall_cons_1 in Hok as [Hp Hok].
    rewrite scan_pair_encode by done. bind_some.
    rewrite bind_cons.
    rewrite <- !app_assoc. cbn [app]. rewrite skip_ws_stop by done.
    change (44 =? 93) with false. change (44 =? 44) with true. cbn match.
    change (skip_ws (32 :: ?r)) with (skip_ws r).
    destruct (encode_tuple_head q ((ps ≫= λ y, 44 :: 32 :: encode_tuple y) ++ 93 :: rest))
      as [r Hr].
    rewrite (skip_ws_stop_eq _ _ Hr).
    rewrite IH; [done|done|]. cbn in Hfuel. lia.
Qed.

Lemma length_bind_cons {A} (f : A → str) (c : N) (l : list A) :
  (length l <= length (l ≫= λ y, c :: f y))%nat.
Proof.
  induction l as [|y l IH]; [done|].
  rewrite bind_cons, length_app. cbn [length]. lia.
Qed.

Lemma loads_dumps headers :
  Forall pair_ok headers → loads (dumps headers) = Some headers.
Proof.
  intros Hok. destruct headers as [|p ps]; [done|].
  unfold dumps, iterencode_list, loads. cbn [app].
  rewrite skip_ws_stop by done. cbn [expect]. change (91 =? 91) with true. cbn match. bind_some.
  destruct (encode_tuple_head p ((ps ≫= λ y, 44 :: 32 :: encode_tuple y) ++ [93]))
    as [r Hr].
  rewrite (skip_ws_stop_eq _ _ Hr). rewrite Hr at 1. change (91 =? 93) with false. cbn match.
  rewrite scan_items_encode; [done|done|].
  rewrite !length_app. cbn [length].
  pose proof (length_bind_cons (λ y, 32 :: encode_tuple y) 44 ps). lia.
Qed.

Lemma headers_ok headers :
  valid_headers headers = true → no_surrogate_pairs headers = true →
  Forall pair_ok headers.
Proof.
  unfold valid_headers, no_surrogate_pairs. rewrite !forallb_forall, List.Forall_forall.
  intros Hv Hn p Hp.
  specialize (Hv p Hp). specialize (Hn p Hp).
  apply andb_true_iff in Hv as [? ?]. apply andb_true_iff in Hn as [? ?]. done.
Qed.

End json_round_trip.

(** ** Running the monad *)

Lemma bind_Return {A B} (m : M A) (f : A → M B) w a w1 :
  m w = (Return a, w1) → (m ≫= f) w = f a w1.
Proof. intros H. unfold mbind, M_bind. by rewrite H. Qed.

Lemma bind_Raise {A B} (m : M A) (f : A → M B) w e w1 :
  m w = (Raise e, w1) → (m ≫= f) w = (Raise e, w1).
Proof. intros H. unfold mbind, M_bind. by rewrite H. Qed.

Lemma getattr_ok {A} ctx (attribute : SimpleNamespace → A) w ns :
  heap w !! ctx = Some ns → getattr ctx attribute w = (Return (attribute ns), w).
Proof. intros H. unfold getattr. by rewrite H. Qed.

Lemma setattr_ok ctx attribute set v w ns :
  heap w !! ctx = Some ns →
  setattr ctx attribute set v w
  = (Return tt, record_call (call_setattr ctx attribute v) None
                  (set_heap (<[ctx := set v ns]>) w)).
Proof. intros H. unfold setattr. by rewrite H. Qed.

Lemma on_connection_ok {A} conn what (run : Connection → exception + Connection * A)
    w c c' a :
  conns w !! conn = Some c → closed c = false → faults w (ops w) = None →
  run c = inr (c', a) →
  on_connection conn what run w
  = (Return a, record_call what None (count_op (set_conns (<[conn := c']>) w))).
Proof. intros H1 H2 H3 H4. unfold on_connection. by rewrite H1, H2, H3, H4. Qed.

Lemma execute_ok conn sql w c :
  conns w !! conn = Some c → closed c = false → faults w (ops w) = None →
  table_exists (statement_table sql) (working c) = true →
  Connection_execute conn sql w
  = (Return {| lastrowid := (insert_row sql (working c)).2 |},
     record_call (call_execute conn sql) None
       (count_op (set_conns
          (<[conn := {| durable := durable c;
                        working := (insert_row sql (working c)).1;
                        in_transaction := true; closed := false |}]>) w))).
Proof.
  intros H1 H2 H3 H4. unfold Connection_execute.
  erewrite on_connection_ok; [done|done|done|done|].
  rewrite H4, H2. by destruct (insert_row sql (working c)).
Qed.

Lemma commit_ok conn w c :
  conns w !! conn = Some c → closed c = false → in_transaction c = true →
  faults w (ops w) = None →
  Connection_commit conn w
  = (Return tt,
     record_call (call_commit conn) None
       (count_op (set_conns
          (<[conn := {| durable := working c; working := working c;
                        in_transaction := false; closed := false |}]>) w))).
Proof.
  intros H1 H2 H3 H4. unfold Connection_commit. rewrite H1, H2, H3.
  erewrite on_connection_ok; [done|done|done|done|]. by rewrite H2.
Qed.

Lemma commit_idle conn w c :
  conns w !! conn = Some c → closed c = false → in_transaction c = false →
  Connection_commit conn w = (Return tt, record_call (call_commit conn) None w).
Proof. intros H1 H2 H3. unfold Connection_commit. by rewrite H1, H2, H3. Qed.

Lemma insert_event_ok conn rid kind w c :
  conns w !! conn = Some c → closed c = false → faults w (ops w) = None →
  table_exists "events" (working c) = true →
  _insert_event conn rid kind w
  = (Return (next_event_id (working c)),
     record_call (call_execute conn (INSERT_INTO_events (clock w (ticks w)) rid kind)) None
       (count_op (set_conns
          (<[conn := {| durable := durable c;
                        working := (insert_row (INSERT_INTO_events (clock w (ticks w)) rid kind)
                                      (working c)).1;
                        in_transaction := true; closed := false |}]>) (tick w)))).
Proof.
  intros H1 H2 H3 H4. unfold _insert_event.
  erewrite bind_Return; [|reflexivity].
  erewrite bind_Return; [|by apply (execute_ok _ _ _ c)].
  reflexivity.
Qed.

Lemma has_schema_table name db :
  has_schema db = true → name ∈ schema_tables → table_exists name db = true.
Proof.
  unfold has_schema. rewrite forallb_forall. intros H Hin. apply H.
  by apply list_elem_of_In.
Qed.

Lemma lookup_insert_same {A} (l : list A) i x y :
  l !! i = Some x → <[i := y]> l !! i = Some y.
Proof. intros H. apply list_lookup_insert_eq. by eapply lookup_lt_Some. Qed.

(** ** A handler that meets no failure

    The handlers are run step by step: each primitive that succeeds is one
    rewriting step ([exec]), whose side conditions [side] discharges. *)

Lemma insert_row_schema sql db : db_schema (insert_row sql db).1 = db_schema db.
Proof. by destruct sql. Qed.

Lemma table_exists_insert_row name sql db :
  table_exists name (insert_row sql db).1 = table_exists name db.
Proof. unfold table_exists, table_names. by rewrite insert_row_schema. Qed.

Lemma has_schema_insert_row sql db : has_schema (insert_row sql db).1 = has_schema db.
Proof.
  unfold has_schema. induction schema_tables as [|name l IH]; [done|].
  cbn [forallb]. by rewrite table_exists_insert_row, IH.
Qed.

Lemma no_fault_3 w :
  no_fault w 3 →
  faults w (ops w) = None ∧ faults w (S (ops w)) = None ∧ faults w (S (S (ops w))) = None.
Proof.
  intros H. pose proof (H 0%nat) as H0. pose proof (H 1%nat) as H1. pose proof (H 2%nat) as H2.
  rewrite Nat.add_0_r in H0. rewrite Nat.add_1_r in H1.
  replace (ops w + 2)%nat with (S (S (ops w))) in H2 by lia.
  split_and!; [apply H0|apply H1|apply H2]; lia.
Qed.

Ltac world_simpl :=
  cbn [conns heap clock ticks uuids drawn faults ops log
       set_conns set_heap tick draw count_op record_call
       durable working in_transaction closed lastrowid statement_table fst snd].

Ltac side :=
  world_simpl;
  first
    [ eassumption
    | reflexivity
    | apply list_lookup_insert_eq; rewrite ?length_insert; eapply lookup_lt_Some; eassumption
    | rewrite ?table_exists_insert_row;
      apply has_schema_table; [eassumption | compute_done] ].

Ltac exec lem := erewrite bind_Return; [| eapply lem; side ].

Lemma send_singleton {P} (h : ClientSession → nat → P → M unit) s ctx p w W :
  h s ctx p w = (Return tt, W) → send [h] s ctx p w = (Return tt, W).
Proof. intros H. unfold send. cbn [foldr]. by erewrite bind_Return. Qed.

Ltac finish_recorded Hctx :=
  unfold recorded, handler_calls, event_statement, detail_statement, counter_update,
    ctx_after, event_ts, readings, event_kind, event_ctx;
  world_simpl;
  rewrite ?list_insert_insert_eq, <- ?app_assoc, ?Nat.add_sub, ?Nat.add_0_r;
  split_and!; try done; try lia;
  try (symmetry; by apply list_insert_id).

Lemma fire_ok conn ev w c ns :
  conns w !! conn = Some c → closed c = false → has_schema (working c) = true →
  heap w !! event_ctx ev = Some ns → no_fault w 3 →
  let r := fire (trace_config (SQLiteTraceRecorder_init conn)) ev w in
  r.1 = Return tt ∧ recorded ev conn c ns w r.2.
Proof.
  intros Hc Hopen Hs Hctx Hf. destruct (no_fault_3 w Hf) as (F0 & F1 & F2).
  destruct ev as [ctx p|ctx p|ctx p|ctx p|ctx p]; cbn [event_ctx] in Hctx;
    cbn [fire SQLiteTraceRecorder_init trace_config TraceConfig_new
         on_request_start on_request_end on_request_exception
         on_request_chunk_sent on_response_chunk_received app
         trace_config_ctx_factory].
  - erewrite send_singleton.
    2:{ unfold _on_request_start.
        exec @getattr_ok. exec insert_event_ok. exec execute_ok.
        eapply commit_ok; side. }
    split; [done|]. finish_recorded Hctx.
  - erewrite send_singleton.
    2:{ unfold _on_request_end.
        erewrite bind_Return; [|reflexivity].
        exec @getattr_ok. exec @getattr_ok. exec insert_event_ok. exec execute_ok.
        eapply commit_ok; side. }
    split; [done|]. finish_recorded Hctx.
  - erewrite send_singleton.
    2:{ unfold _on_request_exception.
        exec @getattr_ok. exec insert_event_ok. exec execute_ok.
        eapply commit_ok; side. }
    split; [done|]. finish_recorded Hctx.
  - erewrite send_singleton.
    2:{ unfold _on_request_chunk_sent.
        exec @getattr_ok. exec insert_event_ok. exec @getattr_ok. exec execute_ok.
        exec @getattr_ok. exec setattr_ok.
        eapply commit_ok; side. }
    split; [done|]. finish_recorded Hctx.
  - erewrite send_singleton.
    2:{ unfold _on_response_chunk_received.
        exec @getattr_ok. exec insert_event_ok. exec @getattr_ok. exec execute_ok.
        exec @getattr_ok. exec setattr_ok.
        eapply commit_ok; side. }
    split; [done|]. finish_recorded Hctx.
Qed.

(** ** What every run of an operation preserves *)

Section preserves.
Context (R : relation world) `{!Reflexive R} `{!Transitive R}.

Lemma preserves_ret {A} (a : A) : preserves R (mret a).
Proof. intros w. reflexivity. Qed.

Lemma preserves_raise {A} (e : exception) : preserves R (@raise A e).
Proof. intros w. reflexivity. Qed.

Lemma preserves_bind {A B} (m : M A) (f : A → M B) :
  preserves R m → (∀ a, preserves R (f a)) → preserves R (m ≫= f).
Proof.
  intros Hm Hf w. specialize (Hm w). unfold mbind, M_bind.
  destruct (m w) as [[a|e] w1]; cbn [snd] in *; [|done].
  etrans; [exact Hm|apply Hf].
Qed.

Lemma preserves_getattr {A} ctx (attribute : SimpleNamespace → A) :
  preserves R (getattr ctx attribute).
Proof. intros w. unfold getattr. destruct (heap w !! ctx); reflexivity. Qed.

Lemma preserves_send {P} (h : ClientSession → nat → P → M unit) s ctx p :
  preserves R (h s ctx p) → preserves R (send [h] s ctx p).
Proof. intros H. unfold send. cbn [foldr]. apply preserves_bind; [done|]. intros _. apply preserves_ret. Qed.
End preserves.

Lemma same_sources_refl : Reflexive same_sources.
Proof. by intros w. Qed.
#[local] Existing Instance same_sources_refl.
Lemma same_sources_trans : Transitive same_sources.
Proof. intros w1 w2 w3 (?&?&?&?&?&?) (?&?&?&?&?&?). split_and!; congruence. Qed.
#[local] Existing Instance same_sources_trans.

Lemma same_heap_refl : Reflexive same_heap.
Proof. by intros w. Qed.
#[local] Existing Instance same_heap_refl.
Lemma same_heap_trans : Transitive same_heap.
Proof. intros w1 w2 w3. unfold same_heap. congruence. Qed.
#[local] Existing Instance same_heap_trans.

Lemma same_handles_refl conn : Reflexive (same_handles conn).
Proof. intros w. split_and!; [done|done|]. exists []. by rewrite app_nil_r. Qed.
#[local] Existing Instance same_handles_refl.
Lemma same_handles_trans conn : Transitive (same_handles conn).
Proof.
  intros w1 w2 w3 (H1 & H2 & new1 & L1 & F1) (H3 & H4 & new2 & L2 & F2).
  split_and!; [congruence| |].
  - intros i Hi. by rewrite H4, H2.
  - exists (new1 ++ new2). rewrite L2, L1, app_assoc. split; [done|]. by apply Forall_app.
Qed.
#[local] Existing Instance same_handles_trans.

Lemma database_le_refl : Reflexive database_le.
Proof. intros db. by unfold database_le. Qed.
#[local] Existing Instance database_le_refl.
Lemma database_le_trans : Transitive database_le.
Proof.
  intros d1 d2 d3 (?&?&?&?&?&?&?) (?&?&?&?&?&?&?).
  unfold database_le. split_and!; by etrans.
Qed.
#[local] Existing Instance database_le_trans.

Lemma conn_step_refl : Reflexive conn_step.
Proof. intros c. unfold conn_step. split_and!; [done| |done]. intros H. split; [done|reflexivity]. Qed.
#[local] Existing Instance conn_step_refl.
Lemma conn_step_trans : Transitive conn_step.
Proof.
  intros c1 c2 c3 (Hc1 & Hw1 & Ht1) (Hc2 & Hw2 & Ht2). split_and!.
  - congruence.
  - intros H. destruct (Hw1 H) as [H2 L1]. destruct (Hw2 H2) as [H3 L2].
    split; [done|by etrans].
  - auto.
Qed.
#[local] Existing Instance conn_step_trans.

Lemma storage_kept_refl : Reflexive storage_kept.
Proof. intros w. split; [done|]. intros i c c' H1 H2. simplify_eq. reflexivity. Qed.
#[local] Existing Instance storage_kept_refl.
Lemma storage_kept_trans : Transitive storage_kept.
Proof.
  intros w1 w2 w3 [L1 H1] [L2 H2]. split; [congruence|].
  intros i c c'' Hc Hc''.
  destruct (conns w2 !! i) as [c'|] eqn:Hc'.
  - etrans; [by eapply H1|by eapply H2].
  - apply lookup_ge_None in Hc'. apply lookup_lt_Some in Hc. lia.
Qed.
#[local] Existing Instance storage_kept_trans.

(** ** Rows are appended, tables are created, nothing is removed *)

Lemma fmap_insert_same {A B} (f : A → B) (l : list A) i x y :
  l !! i = Some x → f y = f x → f <$> <[i := y]> l = f <$> l.
Proof.
  intros Hl Hf. rewrite list_fmap_insert, Hf. apply list_insert_id.
  by rewrite list_lookup_fmap, Hl.
Qed.

Lemma database_le_insert_row sql db : database_le db (insert_row sql db).1.
Proof.
  destruct sql; cbn; unfold database_le; cbn;
    split_and!; first [done | by apply prefix_app_r].
Qed.

Lemma table_exists_create name ddl db :
  table_exists name db = true → table_exists name (create_table_if_not_exists ddl db) = true.
Proof.
  unfold create_table_if_not_exists. destruct (table_exists (ct_name ddl) db); [done|].
  unfold table_exists, table_names. cbn. rewrite !bool_decide_eq_true, fmap_app.
  intros H. apply elem_of_app. by left.
Qed.

Lemma has_schema_create ddl db :
  has_schema db = true → has_schema (create_table_if_not_exists ddl db) = true.
Proof.
  unfold has_schema. rewrite !forallb_forall. intros H name Hin.
  apply table_exists_create. by apply H.
Qed.

Lemma database_le_create ddl db : database_le db (create_table_if_not_exists ddl db).
Proof.
  unfold create_table_if_not_exists. destruct (table_exists (ct_name ddl) db); [reflexivity|].
  unfold database_le; cbn. split_and!; first [done | by apply prefix_app_r].
Qed.

Lemma conn_step_after_fault f c : conn_step c (after_fault f c).
Proof.
  unfold after_fault. destruct (fault_rolls_back f); [|reflexivity].
  unfold conn_step, conn_wf, has_tables; cbn [durable working closed in_transaction]. split_and!; [done| |].
  - intros _. split; reflexivity.
  - by intros [? _].
Qed.

Lemma conn_step_execute sql c :
  conn_step c {| durable := durable c; working := (insert_row sql (working c)).1;
                 in_transaction := true; closed := closed c |}.
Proof.
  unfold conn_step, conn_wf, has_tables; cbn [durable working closed in_transaction]. split_and!; [done| |].
  - intros H. split; [|reflexivity]. etrans; [exact H|apply database_le_insert_row].
  - intros [? ?]. by rewrite has_schema_insert_row.
Qed.

Lemma conn_step_commit c :
  conn_step c {| durable := working c; working := working c;
                 in_transaction := false; closed := closed c |}.
Proof.
  unfold conn_step, conn_wf, has_tables; cbn [durable working closed in_transaction]. split_and!; [done| |].
  - intros H. split; [reflexivity|done].
  - by intros [_ ?].
Qed.

Lemma conn_step_create ddl c :
  conn_step c {| durable := create_table_if_not_exists ddl (working c);
                 working := create_table_if_not_exists ddl (working c);
                 in_transaction := false; closed := closed c |}.
Proof.
  unfold conn_step, conn_wf, has_tables; cbn [durable working closed in_transaction]. split_and!; [done| |].
  - intros H. split; [reflexivity|]. etrans; [exact H|apply database_le_create].
  - intros [_ ?]. split; by apply has_schema_create.
Qed.

Lemma storage_kept_insert i c c' w w' :
  conns w !! i = Some c → conn_step c c' →
  conns w' = <[i := c']> (conns w) → storage_kept w w'.
Proof.
  intros Hc Hstep Hw. split; [by rewrite Hw, length_insert|].
  intros j d d' Hd Hd'. rewrite Hw in Hd'.
  destruct (decide (i = j)) as [->|Hne].
  - rewrite list_lookup_insert_eq in Hd' by (by eapply lookup_lt_Some). by simplify_eq.
  - rewrite list_lookup_insert_ne in Hd' by done. simplify_eq. reflexivity.
Qed.

Lemma storage_kept_same w w' : conns w' = conns w → storage_kept w w'.
Proof.
  intros Hw. split; [by rewrite Hw|]. intros j d d' Hd Hd'. rewrite Hw in Hd'.
  simplify_eq. reflexivity.
Qed.

Lemma same_handles_insert conn c c' call e w w' :
  conns w !! conn = Some c → closed c' = closed c → lifecycle_call call = false →
  conns w' = <[conn := c']> (conns w) → log w' = log w ++ [(call, e)] →
  same_handles conn w w'.
Proof.
  intros Hc Hcl Hcall Hw Hlog. split_and!.
  - rewrite Hw. by eapply fmap_insert_same.
  - intros i Hi. rewrite Hw. by rewrite list_lookup_insert_ne.
  - exists [(call, e)]. split; [done|]. by constructor.
Qed.

Lemma same_handles_log conn call e w w' :
  lifecycle_call call = false →
  conns w' = conns w → log w' = log w ++ [(call, e)] →
  same_handles conn w w'.
Proof.
  intros Hcall Hw Hlog. split_and!; [by rewrite Hw|by rewrite Hw|].
  exists [(call, e)]. split; [done|]. by constructor.
Qed.

(** *** The operations of a connection *)

Section on_connection.
Context {A : Type} (conn : nat) (what : call)
        (run : Connection → exception + Connection * A).

Lemma on_connection_sources : preserves same_sources (on_connection conn what run).
Proof.
  intros w. unfold on_connection.
  repeat case_match; by cbn.
Qed.

Lemma on_connection_heap : preserves same_heap (on_connection conn what run).
Proof.
  intros w. unfold on_connection.
  repeat case_match; by cbn.
Qed.

Lemma on_connection_handles :
  lifecycle_call what = false →
  (∀ c c' a, run c = inr (c', a) → closed c' = closed c) →
  preserves (same_handles conn) (on_connection conn what run).
Proof.
  intros Hwhat Hrun w. unfold on_connection.
  destruct (conns w !! conn) as [c|] eqn:Hc; [|reflexivity].
  destruct (closed c) eqn:Hcl.
  { cbn [snd]. eapply same_handles_log; [exact Hwhat|reflexivity|reflexivity]. }
  destruct (faults w (ops w)) as [f|]; cbn [snd].
  - eapply (same_handles_insert _ c); [done| |exact Hwhat|reflexivity|reflexivity].
    unfold after_fault. by destruct (fault_rolls_back f).
  - destruct (run c) as [e|[c' a]] eqn:Hr; cbn [snd].
    + eapply same_handles_log; [exact Hwhat|reflexivity|reflexivity].
    + eapply (same_handles_insert _ c); [done| |exact Hwhat|reflexivity|reflexivity].
      by eapply Hrun.
Qed.

Lemma on_connection_storage :
  (∀ c c' a, run c = inr (c', a) → conn_step c c') →
  preserves storage_kept (on_connection conn what run).
Proof.
  intros Hrun w. unfold on_connection.
  destruct (conns w !! conn) as [c|] eqn:Hc; [|reflexivity].
  destruct (closed c) eqn:Hcl; [apply storage_kept_same; reflexivity|].
  destruct (faults w (ops w)) as [f|]; cbn [snd].
  - eapply (storage_kept_insert conn c); [done|apply conn_step_after_fault|reflexivity].
  - destruct (run c) as [e|[c' a]] eqn:Hr; cbn [snd].
    + apply storage_kept_same; reflexivity.
    + eapply (storage_kept_insert conn c); [done|by eapply Hrun|reflexivity].
Qed.
End on_connection.

Lemma execute_run_inv sql c c' a :
  (if table_exists (statement_table sql) (working c)
   then let '(db, rowid) := insert_row sql (working c) in
        inr ({| durable := durable c; working := db;
                in_transaction := true; closed := closed c |},
             {| lastrowid := rowid |})
   else inl (no_such_table (statement_table sql))) = inr (c', a) →
  c' = {| durable := durable c; working := (insert_row sql (working c)).1;
          in_transaction := true; closed := closed c |}.
Proof.
  destruct (table_exists _ _); [|done].
  destruct (insert_row sql (working c)) as [db rowid]. intros H. by simplify_eq.
Qed.

Section operations.
Context (conn : nat).

Lemma execute_sources sql : preserves same_sources (Connection_execute conn sql).
Proof. apply on_connection_sources. Qed.
Lemma execute_heap sql : preserves same_heap (Connection_execute conn sql).
Proof. apply on_connection_heap. Qed.
Lemma execute_handles sql : preserves (same_handles conn) (Connection_execute conn sql).
Proof.
  apply on_connection_handles; [done|]. intros c c' a H.
  apply execute_run_inv in H. by subst.
Qed.
Lemma execute_storage sql : preserves storage_kept (Connection_execute conn sql).
Proof.
  apply on_connection_storage. intros c c' a H.
  apply execute_run_inv in H. subst. apply conn_step_execute.
Qed.

Lemma commit_sources : preserves same_sources (Connection_commit conn).
Proof.
  intros w. unfold Connection_commit. repeat case_match; try by cbn.
  apply on_connection_sources.
Qed.
Lemma commit_heap : preserves same_heap (Connection_commit conn).
Proof.
  intros w. unfold Connection_commit. repeat case_match; try by cbn.
  apply on_connection_heap.
Qed.
Lemma commit_handles : preserves (same_handles conn) (Connection_commit conn).
Proof.
  intros w. unfold Connection_commit.
  destruct (conns w !! conn) as [c|] eqn:Hc; [|reflexivity].
  destruct (closed c) eqn:Hcl.
  { cbn [snd]. eapply same_handles_log; [|reflexivity|reflexivity]. done. }
  destruct (in_transaction c).
  2:{ cbn [snd]. eapply same_handles_log; [|reflexivity|reflexivity]. done. }
  apply on_connection_handles; [done|]. intros ? ? ? H. by simplify_eq.
Qed.
Lemma commit_storage : preserves storage_kept (Connection_commit conn).
Proof.
  intros w. unfold Connection_commit.
  destruct (conns w !! conn) as [c|] eqn:Hc; [|reflexivity].
  destruct (closed c) eqn:Hcl; [apply storage_kept_same; reflexivity|].
  destruct (in_transaction c); [|apply storage_kept_same; reflexivity].
  apply on_connection_storage. intros ? ? ? H. simplify_eq. apply conn_step_commit.
Qed.

Lemma create_sources ddl : preserves same_sources (run_create_table conn ddl).
Proof. apply on_connection_sources. Qed.
Lemma create_heap ddl : preserves same_heap (run_create_table conn ddl).
Proof. apply on_connection_heap. Qed.
Lemma create_handles ddl : preserves (same_handles conn) (run_create_table conn ddl).
Proof.
  apply on_connection_handles; [done|]. intros ? ? ? H. cbv zeta in H. by simplify_eq.
Qed.
Lemma create_storage ddl : preserves storage_kept (run_create_table conn ddl).
Proof.
  apply on_connection_storage. intros ? ? ? H. cbv zeta in H. simplify_eq.
  apply conn_step_create.
Qed.
End operations.

Lemma time_sources : preserves same_sources time.time.
Proof. by intros w. Qed.
Lemma time_heap : preserves same_heap time.time.
Proof. by intros w. Qed.
Lemma time_handles conn : preserves (same_handles conn) time.time.
Proof. intros w. apply (same_handles_refl conn w). Qed.
Lemma time_storage : preserves storage_kept time.time.
Proof. intros w. apply storage_kept_same. reflexivity. Qed.

Lemma setattr_request_sources ctx v :
  preserves same_sources (setattr ctx "request_chunk_index" set_request_chunk_index v).
Proof.
  intros w. unfold setattr. destruct (heap w !! ctx) as [ns|] eqn:H; [|done].
  cbn. split_and!; try done; by eapply fmap_insert_same.
Qed.
Lemma setattr_response_sources ctx v :
  preserves same_sources (setattr ctx "response_chunk_index" set_response_chunk_index v).
Proof.
  intros w. unfold setattr. destruct (heap w !! ctx) as [ns|] eqn:H; [|done].
  cbn. split_and!; try done; by eapply fmap_insert_same.
Qed.
Lemma setattr_handles conn ctx attribute set v :
  preserves (same_handles conn) (setattr ctx attribute set v).
Proof.
  intros w. unfold setattr. destruct (heap w !! ctx) as [ns|] eqn:H; [|reflexivity].
  cbn [snd]. eapply same_handles_log; [|reflexivity|reflexivity]. done.
Qed.
Lemma setattr_storage ctx attribute set v :
  preserves storage_kept (setattr ctx attribute set v).
Proof.
  intros w. unfold setattr. destruct (heap w !! ctx) as [ns|] eqn:H; [|reflexivity].
  apply storage_kept_same. reflexivity.
Qed.

Create HintDb frame.
#[local] Hint Resolve preserves_ret preserves_getattr
  execute_sources execute_heap execute_handles execute_storage
  commit_sources commit_heap commit_handles commit_storage
  create_sources create_heap create_handles create_storage
  time_sources time_heap time_handles time_storage
  setattr_request_sources setattr_response_sources setattr_handles setattr_storage
  : frame.
#[local] Hint Extern 0 (Reflexive _) => apply _ : frame.
#[local] Hint Extern 0 (Transitive _) => apply _ : frame.

Ltac frame :=
  repeat first
    [ apply preserves_send
    | apply preserves_bind; [apply _| |intros ?]
    | solve [eauto with frame typeclass_instances] ].

(** ** The handlers and [init_sqlite] as a whole

    What the primitives preserve, the handlers preserve: [frame] goes
    through a handler bind by bind. *)

Ltac unfold_fire :=
  cbn [fire SQLiteTraceRecorder_init trace_config TraceConfig_new
       on_request_start on_request_end on_request_exception
       on_request_chunk_sent on_response_chunk_received app
       trace_config_ctx_factory].

Ltac unfold_handlers :=
  unfold _on_request_start, _on_request_end, _on_request_exception,
    _on_request_chunk_sent, _on_response_chunk_received, _insert_event.

Section fire.
Context (conn : nat).
Local Abbreviation tc := (trace_config (SQLiteTraceRecorder_init conn)).

Lemma fire_sources ev : preserves same_sources (fire tc ev).
Proof. destruct ev; unfold_fire; unfold_handlers; frame. Qed.

Lemma fire_handles ev : preserves (same_handles conn) (fire tc ev).
Proof. destruct ev; unfold_fire; unfold_handlers; frame. Qed.

Lemma fire_storage ev : preserves storage_kept (fire tc ev).
Proof. destruct ev; unfold_fire; unfold_handlers; frame. Qed.

Lemma fire_heap_start ctx p : preserves same_heap (fire tc (RequestStart ctx p)).
Proof. unfold_fire; unfold_handlers; frame. Qed.
Lemma fire_heap_end ctx p : preserves same_heap (fire tc (RequestEnd ctx p)).
Proof. unfold_fire; unfold_handlers; frame. Qed.
Lemma fire_heap_exception ctx p : preserves same_heap (fire tc (RequestException ctx p)).
Proof. unfold_fire; unfold_handlers; frame. Qed.
End fire.

Lemma ctx_factory_handles conn : preserves (same_handles conn) _ctx_factory.
Proof.
  intros w. split_and!; [reflexivity|reflexivity|].
  exists []. split; [symmetry; apply app_nil_r|constructor].
Qed.

Lemma ctx_factory_storage : preserves storage_kept _ctx_factory.
Proof. intros w. apply storage_kept_same. reflexivity. Qed.

Lemma script_handles conn script :
  preserves (same_handles conn)
    (foldr (λ ddl rest, run_create_table conn ddl;; rest) (mret tt) script).
Proof. induction script as [|ddl script IH]; cbn [foldr]; frame. Qed.

Lemma script_storage conn script :
  preserves storage_kept
    (foldr (λ ddl rest, run_create_table conn ddl;; rest) (mret tt) script).
Proof. induction script as [|ddl script IH]; cbn [foldr]; frame. Qed.

Lemma init_sqlite_handles conn : preserves (same_handles conn) (init_sqlite conn).
Proof.
  unfold init_sqlite, Connection_executescript.
  pose proof (script_handles conn schema_script). frame.
Qed.

Lemma init_sqlite_storage conn : preserves storage_kept (init_sqlite conn).
Proof.
  unfold init_sqlite, Connection_executescript.
  pose proof (script_storage conn schema_script). frame.
Qed.

(** ** Errors end a run *)

Lemma propagates_ret {A} (a : A) : propagates (mret a).
Proof. intros w. exists []. split; [symmetry; apply app_nil_r|constructor]. Qed.

Lemma propagates_bind {A B} (m : M A) (f : A → M B) :
  propagates m → (∀ a, propagates (f a)) → propagates (m ≫= f).
Proof.
  intros Hm Hf w. destruct (Hm w) as (new1 & L1 & E1). unfold mbind, M_bind.
  destruct (m w) as [[a|e] w1]; cbn [fst snd] in *.
  - destruct (Hf a w1) as (new2 & L2 & E2). exists (new1 ++ new2).
    rewrite L2, L1, app_assoc. split; [done|].
    destruct (f a w1).1 as [b|e]; cbn [ends_with] in *.
    + by apply Forall_app.
    + destruct E2 as [E2|(pre & c & -> & E2)].
      * left. by apply Forall_app.
      * right. exists (new1 ++ pre), c. rewrite app_assoc. split; [done|].
        by apply Forall_app.
  - by exists new1.
Qed.

Lemma propagates_getattr {A} ctx (attribute : SimpleNamespace → A) :
  propagates (getattr ctx attribute).
Proof.
  intros w. exists []. rewrite app_nil_r. unfold getattr.
  destruct (heap w !! ctx); cbn; (split; [done|]); [constructor|left; constructor].
Qed.

Lemma propagates_time : propagates time.time.
Proof. intros w. exists []. rewrite app_nil_r. split; [done|constructor]. Qed.

Lemma propagates_setattr ctx attribute set v : propagates (setattr ctx attribute set v).
Proof.
  intros w. unfold setattr. destruct (heap w !! ctx); cbn [fst snd].
  - eexists. split; [reflexivity|]. by repeat constructor.
  - exists []. rewrite app_nil_r. split; [done|]. left. constructor.
Qed.

Lemma propagates_on_connection {A} conn what (run : Connection → exception + Connection * A) :
  propagates (on_connection conn what run).
Proof.
  intros w. unfold on_connection.
  destruct (conns w !! conn) as [c|].
  2:{ exists []. rewrite app_nil_r. split; [done|]. left. constructor. }
  destruct (closed c).
  { eexists. split; [reflexivity|]. right. exists [], what. split; [done|constructor]. }
  destruct (faults w (ops w)) as [f|].
  { eexists. split; [reflexivity|]. right. exists [], what. split; [done|constructor]. }
  destruct (run c) as [e|[c' a]]; cbn [fst snd].
  - eexists. split; [reflexivity|]. right. exists [], what. split; [done|constructor].
  - eexists. split; [reflexivity|]. by repeat constructor.
Qed.

Lemma propagates_execute conn sql : propagates (Connection_execute conn sql).
Proof. apply propagates_on_connection. Qed.

Lemma propagates_commit conn : propagates (Connection_commit conn).
Proof.
  intros w. unfold Connection_commit.
  destruct (conns w !! conn) as [c|].
  2:{ exists []. rewrite app_nil_r. split; [done|]. left. constructor. }
  destruct (closed c).
  { eexists. split; [reflexivity|]. right. exists [], (call_commit conn).
    split; [done|constructor]. }
  destruct (in_transaction c).
  - apply propagates_on_connection.
  - eexists. split; [reflexivity|]. by repeat constructor.
Qed.

Lemma propagates_send {P} (h : ClientSession → nat → P → M unit) s ctx p :
  propagates (h s ctx p) → propagates (send [h] s ctx p).
Proof.
  intros H. unfold send. cbn [foldr]. apply propagates_bind; [done|].
  intros _. apply propagates_ret.
Qed.

Ltac propagate :=
  repeat first
    [ apply propagates_send
    | apply propagates_bind; [|intros ?]
    | apply propagates_ret | apply propagates_getattr | apply propagates_time
    | apply propagates_setattr | apply propagates_execute | apply propagates_commit ].

Lemma fire_propagates conn ev :
  propagates (fire (trace_config (SQLiteTraceRecorder_init conn)) ev).
Proof. destruct ev; unfold_fire; unfold_handlers; propagate. Qed.

Lemma new_calls_app w w' new : log w' = log w ++ new → new_calls w w' = new.
Proof. intros H. unfold new_calls. by rewrite H, drop_app_length. Qed.

Lemma ends_with_error {A} (o : outcome A) new c e :
  ends_with o new → (c, Some e) ∈ new → o = Raise e ∧ last new = Some (c, Some e).
Proof.
  intros He Hin.
  assert (Hclean : ∀ l, clean l → (c, Some e) ∈ l → False).
  { intros l Hl Hx. unfold clean in Hl. rewrite Forall_forall in Hl.
    specialize (Hl _ Hx). done. }
  destruct o as [a|e']; cbn in He.
  - destruct (Hclean _ He Hin).
  - destruct He as [He|(pre & c' & -> & Hpre)]; [destruct (Hclean _ He Hin)|].
    apply elem_of_app in Hin as [Hin|Hin]; [destruct (Hclean _ Hpre Hin)|].
    apply list_elem_of_singleton in Hin. simplify_eq. by rewrite last_snoc.
Qed.

(** ** The steps of a chunk handler, whatever fails *)

Lemma inserting_refl conn : Reflexive (inserting conn).
Proof. intros w. split; [done|]. exists []. by rewrite app_nil_r. Qed.
#[local] Existing Instance inserting_refl.
Lemma inserting_trans conn : Transitive (inserting conn).
Proof.
  intros w1 w2 w3 (H1 & new1 & L1 & F1) (H2 & new2 & L2 & F2). split; [congruence|].
  exists (new1 ++ new2). rewrite L2, L1, app_assoc. split; [done|]. by apply Forall_app.
Qed.
#[local] Existing Instance inserting_trans.

Lemma execute_inserting conn sql : preserves (inserting conn) (Connection_execute conn sql).
Proof.
  intros w. unfold Connection_execute, on_connection.
  repeat case_match; cbn [snd]; try reflexivity;
    (split; [reflexivity|]; eexists; split; [reflexivity|]; repeat constructor; by eexists).
Qed.

Lemma time_inserting conn : preserves (inserting conn) time.time.
Proof. intros w. split; [done|]. exists []. by rewrite app_nil_r. Qed.

Lemma insert_event_inserting conn rid kind :
  preserves (inserting conn) (_insert_event conn rid kind).
Proof.
  unfold _insert_event. apply preserves_bind; [apply _|apply time_inserting|intros now].
  apply preserves_bind; [apply _|apply execute_inserting|intros cur].
  apply preserves_ret. apply _.
Qed.

(** An operation either raises or met the conditions under which it succeeds. *)
Lemma execute_cases conn sql w :
  (∃ e, (Connection_execute conn sql w).1 = Raise e) ∨
  (∃ c, conns w !! conn = Some c ∧ closed c = false ∧ faults w (ops w) = None ∧
        table_exists (statement_table sql) (working c) = true).
Proof.
  unfold Connection_execute, on_connection.
  destruct (conns w !! conn) as [c|]; [|left; eexists; reflexivity].
  destruct (closed c) eqn:E1; [left; eexists; reflexivity|].
  destruct (faults w (ops w)) eqn:E2; [left; eexists; reflexivity|].
  destruct (table_exists (statement_table sql) (working c)) eqn:E3;
    [|left; eexists; reflexivity].
  right. by exists c.
Qed.

Lemma insert_event_cases conn rid kind w :
  (∃ e, (_insert_event conn rid kind w).1 = Raise e) ∨
  (∃ c, conns w !! conn = Some c ∧ closed c = false ∧ faults w (ops w) = None ∧
        table_exists "events" (working c) = true).
Proof.
  destruct (execute_cases conn (INSERT_INTO_events (clock w (ticks w)) rid kind) (tick w))
    as [[e He]|Hok]; [left|by right].
  exists e. unfold _insert_event, mbind, M_bind. cbn [time.time].
  destruct (Connection_execute _ _ _) as [[a|e'] w1]; by simplify_eq/=.
Qed.

Lemma bind_Raise_fst {A B} (m : M A) (f : A → M B) w e :
  (m w).1 = Raise e → (m ≫= f) w = (Raise e, (m w).2).
Proof. intros H. unfold mbind, M_bind. destruct (m w) as [[a|e'] w1]; by simplify_eq/=. Qed.

Lemma commit_pending conn w c :
  conns w !! conn = Some c → closed c = false → in_transaction c = true →
  ∃ o,
    (Connection_commit conn w).1 = match o with None => Return tt | Some e => Raise e end ∧
    heap (Connection_commit conn w).2 = heap w ∧
    log (Connection_commit conn w).2 = log w ++ [(call_commit conn, o)].
Proof.
  intros H1 H2 H3. unfold Connection_commit, on_connection. rewrite H1, H2, H3.
  destruct (faults w (ops w)) as [f|].
  - by exists (Some (fault_exception f)).
  - by exists None.
Qed.

Lemma send_one {P} (h : ClientSession → nat → P → M unit) s ctx p w :
  send [h] s ctx p w = h s ctx p w.
Proof.
  unfold send. cbn [foldr]. unfold mbind, M_bind.
  by destruct (h s ctx p w) as [[[]|e] w1].
Qed.

Lemma getattr_fail {A} ctx (attribute : SimpleNamespace → A) w :
  heap w !! ctx = None → getattr ctx attribute w = (Raise (dangling "context"), w).
Proof. intros H. unfold getattr. by rewrite H. Qed.

Ltac chunk_steps_commit c ns :=
  lazymatch goal with |- chunk_steps _ _ _ (Connection_commit ?cn ?W) =>
    edestruct (commit_pending cn W) as (o & Ho & Hheap & Hlog);
    [world_simpl; apply list_lookup_insert_eq; rewrite ?length_insert;
     by eapply lookup_lt_Some
    |reflexivity|reflexivity|];
    right; exists c, ns, o; split; [done|]; split; [done|];
    rewrite Hheap; revert Hlog; world_simpl; rewrite <- !app_assoc; cbn [app];
    intros Hlog; erewrite new_calls_app by exact Hlog;
    split_and!; [reflexivity|reflexivity|reflexivity|exact Ho]
  end.

Ltac chunk_steps_detail c ns :=
  lazymatch goal with |- chunk_steps _ _ _ ((Connection_execute ?cn ?sql ≫= _) ?W) =>
    destruct (execute_cases cn sql W) as [[e He]|(c1 & Hc1 & Hopen1 & F1 & T1)];
    [left; eexists; erewrite bind_Raise_fst by exact He; split; [reflexivity|];
     etrans; [|apply execute_inserting];
     split; [reflexivity|]; eexists; split; [reflexivity|];
     repeat constructor; by eexists
    |revert Hc1 Hopen1 F1 T1; world_simpl;
     rewrite list_lookup_insert_eq by (by eapply lookup_lt_Some);
     intros [= <-] _ F1 T1; cbn [working] in T1;
     (erewrite bind_Return; [| eapply execute_ok; side ]);
     exec @getattr_ok; exec setattr_ok;
     chunk_steps_commit c ns]
  end.

Ltac chunk_steps_script conn ctx w kind :=
  destruct (heap w !! ctx) as [ns|] eqn:Hctx;
  [|left; eexists; erewrite bind_Raise by (by apply getattr_fail);
    split; reflexivity];
  exec @getattr_ok;
  destruct (insert_event_cases conn (request_id ns) (py kind) w)
    as [[e He]|(c & Hc & Hopen & F0 & T0)];
  [left; eexists; erewrite bind_Raise_fst by exact He; split; [reflexivity|];
   apply insert_event_inserting|];
  exec insert_event_ok; exec @getattr_ok;
  chunk_steps_detail c ns.

Lemma chunk_sent_steps conn ctx p w :
  chunk_steps conn (RequestChunkSent ctx p) w
    (_on_request_chunk_sent conn client_session ctx p w).
Proof.
  unfold _on_request_chunk_sent. cbn [event_ctx].
  chunk_steps_script conn ctx w "request_chunk"%string.
Qed.

Lemma chunk_received_steps conn ctx p w :
  chunk_steps conn (ResponseChunkReceived ctx p) w
    (_on_response_chunk_received conn client_session ctx p w).
Proof.
  unfold _on_response_chunk_received. cbn [event_ctx].
  chunk_steps_script conn ctx w "response_chunk"%string.
Qed.

Lemma fire_chunk_steps conn ev w :
  chunk_event ev = true →
  chunk_steps conn ev w (fire (trace_config (SQLiteTraceRecorder_init conn)) ev w).
Proof.
  intros Hev. destruct ev as [ctx p|ctx p|ctx p|ctx p|ctx p]; try done;
    unfold_fire; rewrite send_one.
  - apply chunk_sent_steps.
  - apply chunk_received_steps.
Qed.

(** ** Chunk indices under one correlation id *)

Lemma next_event_id_gt db e : e ∈ events db → (ev_id e < next_event_id db)%Z.
Proof.
  unfold next_event_id. generalize (events_sequence db). induction (events db) as [|x l IH];
    intros z Hin; [by apply elem_of_nil in Hin|].
  apply elem_of_cons in Hin as [->|Hin]; cbn [fmap list_fmap foldr].
  - lia.
  - specialize (IH z Hin). lia.
Qed.

Lemma find_app_l {A} (f : A → bool) l1 l2 x :
  List.find f l1 = Some x → List.find f (l1 ++ l2) = Some x.
Proof.
  induction l1 as [|y l1 IH]; [done|]. cbn. destruct (f y); [done|apply IH].
Qed.

Lemma find_app_r {A} (f : A → bool) l1 l2 :
  List.find f l1 = None → List.find f (l1 ++ l2) = List.find f l2.
Proof.
  induction l1 as [|y l1 IH]; [done|]. cbn. destruct (f y); [done|apply IH].
Qed.

Lemma find_event_Some db id :
  id ∈ (ev_id <$> events db) →
  ∃ e, List.find (λ e, bool_decide (ev_id e = id)) (events db) = Some e.
Proof.
  induction (events db) as [|x l IH]; intros Hin; [by apply elem_of_nil in Hin|].
  cbn. case_bool_decide; [by eexists|].
  apply elem_of_cons in Hin as [Hx|Hin]; [done|by apply IH].
Qed.

Lemma find_event_None db id :
  id ∉ (ev_id <$> events db) →
  List.find (λ e, bool_decide (ev_id e = id)) (events db) = None.
Proof.
  induction (events db) as [|x l IH]; intros Hin; [done|].
  rewrite fmap_cons, not_elem_of_cons in Hin. destruct Hin as [Hx Hin]. cbn.
  case_bool_decide; [done|by apply IH].
Qed.

Lemma next_event_id_fresh db : next_event_id db ∉ (ev_id <$> events db).
Proof.
  intros Hin. apply list_elem_of_fmap in Hin as (e & He & Hin).
  apply next_event_id_gt in Hin. lia.
Qed.

Lemma insert_row_events sql db :
  events (insert_row sql db).1 = events db ++ new_events sql db.
Proof. destruct sql; cbn; by rewrite ?app_nil_r. Qed.
Lemma insert_row_request_chunk sql db :
  request_chunk (insert_row sql db).1 = request_chunk db ++ new_request_chunks sql.
Proof. destruct sql; cbn; by rewrite ?app_nil_r. Qed.
Lemma insert_row_response_chunk sql db :
  response_chunk (insert_row sql db).1 = response_chunk db ++ new_response_chunks sql.
Proof. destruct sql; cbn; by rewrite ?app_nil_r. Qed.

Lemma request_id_of_event_old sql db id :
  id ∈ (ev_id <$> events db) →
  request_id_of_event (insert_row sql db).1 id = request_id_of_event db id.
Proof.
  intros Hin. unfold request_id_of_event. rewrite insert_row_events.
  destruct (find_event_Some db id Hin) as [e He].
  by rewrite (find_app_l _ _ _ _ He), He.
Qed.

Lemma request_id_of_event_new ts rid kind db :
  request_id_of_event (insert_row (INSERT_INTO_events ts rid kind) db).1 (next_event_id db)
  = Some rid.
Proof.
  unfold request_id_of_event. rewrite insert_row_events.
  rewrite find_app_r by apply find_event_None, next_event_id_fresh.
  cbn. by rewrite bool_decide_eq_true_2.
Qed.

Lemma chunk_indices_ext db db' rows rid :
  (∀ row, row ∈ rows →
     request_id_of_event db' (ck_event_id row) = request_id_of_event db (ck_event_id row)) →
  chunk_indices db' rows rid = chunk_indices db rows rid.
Proof.
  intros H. unfold chunk_indices. f_equal.
  induction rows as [|row rows IH]; [done|].
  rewrite !filter_cons. rewrite H by left.
  rewrite IH; [done|]. intros r Hr. apply H. by right.
Qed.

Lemma chunk_indices_app db rows1 rows2 rid :
  chunk_indices db (rows1 ++ rows2) rid
  = chunk_indices db rows1 rid ++ chunk_indices db rows2 rid.
Proof. unfold chunk_indices. by rewrite filter_app, fmap_app. Qed.

Lemma references_events_insert sql db :
  references_events db →
  (∀ row, row ∈ new_request_chunks sql ++ new_response_chunks sql →
          ck_event_id row ∈ (ev_id <$> events db)) →
  references_events (insert_row sql db).1.
Proof.
  intros Href Hnew row. rewrite insert_row_request_chunk, insert_row_response_chunk.
  rewrite insert_row_events, fmap_app. intros Hin. apply elem_of_app. left.
  rewrite !elem_of_app in Hin.
  destruct Hin as [[Hin|Hin]|[Hin|Hin]].
  - apply Href. apply elem_of_app. by left.
  - apply Hnew. apply elem_of_app. by left.
  - apply Href. apply elem_of_app. by right.
  - apply Hnew. apply elem_of_app. by right.
Qed.

(** ** One handler and the chunk tables *)

Section one_handler.
Context (ev : lifecycle_event) (ns : SimpleNamespace) (w : world) (db : database).
Local Abbreviation db1 := ((insert_row (event_statement ev ns w) db).1).
Local Abbreviation sql := (detail_statement ev ns w (next_event_id db)).
Local Abbreviation db2 := ((insert_row sql db1).1).

Lemma detail_rows_refer row :
  row ∈ new_request_chunks sql ++ new_response_chunks sql →
  ck_event_id row = next_event_id db.
Proof.
  destruct ev; cbn; intros H; try by apply elem_of_nil in H.
  all: apply list_elem_of_singleton in H; by subst.
Qed.

Lemma next_id_in_db1 : next_event_id db ∈ (ev_id <$> events db1).
Proof.
  rewrite insert_row_events, fmap_app. apply elem_of_app. right.
  cbn. left.
Qed.

Lemma old_id_in_db1 id : id ∈ (ev_id <$> events db) → id ∈ (ev_id <$> events db1).
Proof.
  intros H. rewrite insert_row_events, fmap_app. apply elem_of_app. by left.
Qed.

Lemma references_events_handler : references_events db → references_events db2.
Proof.
  intros Href. apply references_events_insert.
  - apply references_events_insert; [done|]. intros row H. by apply elem_of_nil in H.
  - intros row H. rewrite (detail_rows_refer row H). apply next_id_in_db1.
Qed.

Lemma request_id_old id :
  id ∈ (ev_id <$> events db) → request_id_of_event db2 id = request_id_of_event db id.
Proof.
  intros H. rewrite request_id_of_event_old by (by apply old_id_in_db1).
  by apply request_id_of_event_old.
Qed.

Lemma request_id_new : request_id_of_event db2 (next_event_id db) = Some (request_id ns).
Proof.
  rewrite request_id_of_event_old by apply next_id_in_db1.
  apply request_id_of_event_new.
Qed.

Lemma chunk_indices_new rows rid :
  (∀ row, row ∈ rows → ck_event_id row = next_event_id db) →
  chunk_indices db2 rows rid
  = if decide (request_id ns = rid) then ck_chunk_index <$> rows else [].
Proof.
  intros H. unfold chunk_indices. induction rows as [|row rows IH].
  { by destruct (decide _). }
  rewrite filter_cons, (H row) by left. rewrite request_id_new.
  rewrite fmap_cons.
  destruct (decide (request_id ns = rid)) as [->|Hne].
  - rewrite decide_True by done. rewrite fmap_cons. f_equal.
    apply IH. intros r Hr. apply H. by right.
  - rewrite decide_False by congruence. apply IH. intros r Hr. apply H. by right.
Qed.

Lemma chunk_indices_old rows rid :
  (∀ row, row ∈ rows → ck_event_id row ∈ (ev_id <$> events db)) →
  chunk_indices db2 rows rid = chunk_indices db rows rid.
Proof. intros H. apply chunk_indices_ext. intros row Hr. by apply request_id_old, H. Qed.

Lemma request_chunk_handler rid :
  references_events db →
  chunk_indices db2 (request_chunk db2) rid
  = chunk_indices db (request_chunk db) rid
    ++ if decide (request_id ns = rid) then sent_index ev ns else [].
Proof.
  intros Href. rewrite insert_row_request_chunk.
  rewrite insert_row_request_chunk. cbn [new_request_chunks event_statement].
  rewrite app_nil_r, chunk_indices_app. f_equal.
  - apply chunk_indices_old. intros row Hr. apply Href, elem_of_app. by left.
  - rewrite chunk_indices_new.
    + by destruct ev.
    + intros row Hr. apply detail_rows_refer, elem_of_app. by left.
Qed.

Lemma response_chunk_handler rid :
  references_events db →
  chunk_indices db2 (response_chunk db2) rid
  = chunk_indices db (response_chunk db) rid
    ++ if decide (request_id ns = rid) then received_index ev ns else [].
Proof.
  intros Href. rewrite insert_row_response_chunk.
  rewrite insert_row_response_chunk. cbn [new_response_chunks event_statement].
  rewrite app_nil_r, chunk_indices_app. f_equal.
  - apply chunk_indices_old. intros row Hr. apply Href, elem_of_app. by right.
  - rewrite chunk_indices_new.
    + by destruct ev.
    + intros row Hr. apply detail_rows_refer, elem_of_app. by right.
Qed.
End one_handler.

(** ** Runs of the host

    [tracked] is the invariant of a run: one step of any event keeps it, with
    the count of the direction of the event one higher. *)

Lemma healthy_no_fault w n : healthy w → no_fault w n.
Proof. intros H k _. apply H. Qed.

Lemma run_cons tc a acts w :
  (run tc (a :: acts) w).2 = (run tc acts (host_step tc a w).2).2.
Proof.
  cbn [run]. destruct (host_step tc a w) as [o w1]. cbn [snd].
  by destruct (run tc acts w1).
Qed.

Lemma fire_dangling conn ev w :
  heap w !! event_ctx ev = None →
  let r := fire (trace_config (SQLiteTraceRecorder_init conn)) ev w in
  r.1 = Raise (dangling "context") ∧ conns r.2 = conns w ∧ heap r.2 = heap w ∧
  log r.2 = log w.
Proof.
  intros H. destruct ev as [ctx p|ctx p|ctx p|ctx p|ctx p]; cbn [event_ctx] in H;
    unfold_fire; rewrite send_one;
    unfold _on_request_start, _on_request_end, _on_request_exception,
      _on_request_chunk_sent, _on_response_chunk_received.
  2:{ erewrite bind_Return by reflexivity.
      erewrite bind_Raise by (by apply getattr_fail). done. }
  all: erewrite bind_Raise by (by apply getattr_fail); done.
Qed.

Lemma seqZ_snoc (n : Z) : (0 ≤ n)%Z → seqZ 0 (n + 1) = seqZ 0 n ++ [n].
Proof. intros H. rewrite seqZ_app by lia. f_equal. Qed.

Lemma request_id_ctx_after ev ns : request_id (ctx_after ev ns) = request_id ns.
Proof. by destruct ev. Qed.

Lemma tracked_step conn k rid a b ev w :
  healthy w → (0 ≤ a)%Z → (0 ≤ b)%Z → tracked conn k rid a b w →
  let w' := (fire (trace_config (SQLiteTraceRecorder_init conn)) ev w).2 in
  healthy w' ∧
  tracked conn k rid (a + sent_by k (Fire ev)) (b + received_by k (Fire ev)) w'.
Proof.
  intros Hh Ha Hb [c ns Hc Hopen Hs Hdur Href Hk Hrid Hsent Hrecv Hothers Hreq Hresp].
  pose proof (fire_sources conn ev w) as (_ & _ & _ & Hfaults & _).
  intros w'. split; [intros n; unfold w'; rewrite Hfaults; apply Hh|].
  destruct (heap w !! event_ctx ev) as [nsj|] eqn:Hj.
  - destruct (fire_ok conn ev w c nsj Hc Hopen Hs Hj (healthy_no_fault w 3 Hh))
      as (_ & Hconns & Hheap & _).
    fold w' in Hconns, Hheap.
    set (db1 := (insert_row (event_statement ev nsj w) (working c)).1) in *.
    set (db2 := (insert_row (detail_statement ev nsj w (next_event_id (working c))) db1).1) in *.
    pose proof (request_chunk_handler ev nsj w (working c) rid Href) as Hreq'.
    pose proof (response_chunk_handler ev nsj w (working c) rid Href) as Hresp'.
    fold db1 db2 in Hreq', Hresp'. rewrite <- Hdur, Hreq in Hreq'.
    rewrite <- Hdur, Hresp in Hresp'.
    destruct (decide (event_ctx ev = k)) as [Hek|Hek].
    + rewrite Hek in Hj. rewrite Hk in Hj. injection Hj as <-.
      rewrite decide_True in Hreq', Hresp' by done.
      eapply (Tracked _ _ _ _ _ _ _ (ctx_after ev ns)).
      * rewrite Hconns. by eapply lookup_insert_same.
      * done.
      * cbn [working]. unfold db2, db1. by rewrite !has_schema_insert_row.
      * done.
      * apply references_events_handler, Href.
      * rewrite Hheap, Hek. by eapply lookup_insert_same.
      * by rewrite request_id_ctx_after.
      * destruct ev; cbn in Hek |- *; subst; unfold sent_by; cbn;
          rewrite ?bool_decide_eq_true_2 by done; lia.
      * destruct ev; cbn in Hek |- *; subst; unfold received_by; cbn;
          rewrite ?bool_decide_eq_true_2 by done; lia.
      * intros j ns' Hjk. rewrite Hheap, Hek.
        rewrite list_lookup_insert_ne by done. by apply Hothers.
      * cbn [durable]. rewrite Hreq'.
        destruct ev; cbn in Hek |- *; subst; unfold sent_by; cbn;
          rewrite ?bool_decide_eq_true_2 by done;
          rewrite ?app_nil_r, ?Z.add_0_r; try done.
        by rewrite seqZ_snoc.
      * cbn [durable]. rewrite Hresp'.
        destruct ev; cbn in Hek |- *; subst; unfold received_by; cbn;
          rewrite ?bool_decide_eq_true_2 by done;
          rewrite ?app_nil_r, ?Z.add_0_r; try done.
        by rewrite seqZ_snoc.
    + assert (request_id nsj ≠ rid) as Hne by (by eapply Hothers).
      rewrite decide_False in Hreq', Hresp' by done.
      rewrite app_nil_r in Hreq', Hresp'.
      assert (sent_by k (Fire ev) = 0%Z ∧ received_by k (Fire ev) = 0%Z) as [-> ->].
      { unfold sent_by, received_by. destruct ev; cbn in Hek |- *;
          rewrite ?bool_decide_eq_false_2 by done; done. }
      rewrite !Z.add_0_r.
      eapply (Tracked _ _ _ _ _ _ _ ns).
      * rewrite Hconns. by eapply lookup_insert_same.
      * done.
      * cbn [working]. unfold db2, db1. by rewrite !has_schema_insert_row.
      * done.
      * apply references_events_handler, Href.
      * rewrite Hheap. by rewrite list_lookup_insert_ne.
      * done.
      * done.
      * done.
      * intros j ns' Hjk. rewrite Hheap.
        destruct (decide (event_ctx ev = j)) as [<-|Hej].
        -- rewrite list_lookup_insert_eq by (by eapply lookup_lt_Some).
           intros [= <-]. by rewrite request_id_ctx_after.
        -- rewrite list_lookup_insert_ne by done. by apply Hothers.
      * done.
      * done.
  - destruct (fire_dangling conn ev w Hj) as (_ & Hconns & Hheap & _).
    fold w' in Hconns, Hheap.
    assert (event_ctx ev ≠ k) as Hek by (intros Heq; rewrite Heq in Hj; congruence).
    assert (sent_by k (Fire ev) = 0%Z ∧ received_by k (Fire ev) = 0%Z) as [-> ->].
    { unfold sent_by, received_by. destruct ev; cbn in Hek |- *;
        rewrite ?bool_decide_eq_false_2 by done; done. }
    rewrite !Z.add_0_r.
    eapply (Tracked _ _ _ _ _ _ c ns); rewrite ?Hconns, ?Hheap; try done.
Qed.

Lemma count_sent_cons k a acts :
  count_sent k (a :: acts) = (sent_by k a + count_sent k acts)%Z.
Proof.
  unfold count_sent, sent_by, len. cbn [List.filter].
  destruct (is_sent k a); cbn [length]; lia.
Qed.

Lemma count_received_cons k a acts :
  count_received k (a :: acts) = (received_by k a + count_received k acts)%Z.
Proof.
  unfold count_received, received_by, len. cbn [List.filter].
  destruct (is_received k a); cbn [length]; lia.
Qed.

Lemma sent_by_nonneg k a : (0 ≤ sent_by k a)%Z.
Proof. unfold sent_by. destruct (is_sent k a); lia. Qed.
Lemma received_by_nonneg k a : (0 ≤ received_by k a)%Z.
Proof. unfold received_by. destruct (is_received k a); lia. Qed.

Lemma tracked_run conn k rid evs : ∀ a b w,
  healthy w → (0 ≤ a)%Z → (0 ≤ b)%Z → tracked conn k rid a b w →
  tracked conn k rid (a + count_sent k (Fire <$> evs))
    (b + count_received k (Fire <$> evs))
    (run (trace_config (SQLiteTraceRecorder_init conn)) (Fire <$> evs) w).2.
Proof.
  induction evs as [|ev evs IH]; intros a b w Hh Ha Hb Ht.
  - cbn. unfold count_sent, count_received, len. cbn. by rewrite !Z.add_0_r.
  - rewrite fmap_cons, run_cons, count_sent_cons, count_received_cons, !Z.add_assoc.
    cbn [host_step].
    destruct (tracked_step conn k rid a b ev w Hh Ha Hb Ht) as [Hh' Ht'].
    pose proof (sent_by_nonneg k (Fire ev)). pose proof (received_by_nonneg k (Fire ev)).
    apply IH; [done|lia|lia|done].
Qed.

Lemma chunk_indices_none db rows rid :
  (∀ e, e ∈ events db → ev_request_id e ≠ rid) → chunk_indices db rows rid = [].
Proof.
  intros H. unfold chunk_indices. induction rows as [|row rows IH]; [done|].
  rewrite filter_cons, decide_False; [done|].
  unfold request_id_of_event.
  destruct (List.find _ (events db)) as [e|] eqn:He; [|done].
  apply find_some in He as [Hin _]. apply list_elem_of_In in Hin.
  cbn. intros [= Heq]. by apply (H e).
Qed.

(** ** [init_sqlite] *)

Lemma healthy_same w w' : faults w' = faults w → healthy w → healthy w'.
Proof. intros H Hh n. rewrite H. apply Hh. Qed.

Lemma create_ok conn ddl w c :
  conns w !! conn = Some c → closed c = false → healthy w →
  run_create_table conn ddl w
  = (Return tt,
     record_call (call_create_table conn ddl) None
       (count_op (set_conns
          (<[conn := settled (create_table_if_not_exists ddl (working c))]>) w))).
Proof.
  intros Hc Hopen Hh. unfold run_create_table.
  erewrite on_connection_ok; [done|done|done|apply Hh|]. by rewrite Hopen.
Qed.

Lemma run_script_cons conn ddl script :
  run_script conn (ddl :: script) = (run_create_table conn ddl;; run_script conn script).
Proof. reflexivity. Qed.

Lemma script_ok conn script : ∀ ddl w c,
  conns w !! conn = Some c → closed c = false → healthy w →
  let r := run_script conn (ddl :: script) w in
  r.1 = Return tt ∧
  conns r.2 = <[conn := settled (create_all (ddl :: script) (working c))]> (conns w) ∧
  heap r.2 = heap w ∧ faults r.2 = faults w.
Proof.
  induction script as [|ddl' script IH]; intros ddl w c Hc Hopen Hh;
    rewrite run_script_cons; erewrite bind_Return by (by apply create_ok).
  - done.
  - lazymatch goal with |- context [run_script conn (ddl' :: script) ?W] =>
      destruct (IH ddl' W (settled (create_table_if_not_exists ddl (working c))))
        as (H1 & H2 & H3 & H4) end.
    { world_simpl. by eapply lookup_insert_same. }
    { done. }
    { by eapply healthy_same. }
    cbn zeta. rewrite H1, H2, H3, H4. world_simpl.
    by rewrite list_insert_insert_eq.
Qed.

Lemma commit_any conn w c :
  conns w !! conn = Some c → closed c = false → healthy w →
  ∃ c1, (Connection_commit conn w).1 = Return tt ∧
        conns (Connection_commit conn w).2 = <[conn := c1]> (conns w) ∧
        closed c1 = false ∧ working c1 = working c ∧
        heap (Connection_commit conn w).2 = heap w ∧
        faults (Connection_commit conn w).2 = faults w.
Proof.
  intros Hc Hopen Hh. destruct (in_transaction c) eqn:Htx.
  - erewrite commit_ok by (try done; apply Hh). eexists. by split_and!.
  - erewrite commit_idle by done. exists c. world_simpl. split_and!; try done.
    symmetry. by apply list_insert_id.
Qed.

Lemma init_sqlite_ok conn w c :
  conns w !! conn = Some c → closed c = false → healthy w →
  let r := init_sqlite conn w in
  r.1 = Return tt ∧
  conns r.2 = <[conn := settled (create_all schema_script (working c))]> (conns w) ∧
  heap r.2 = heap w ∧ faults r.2 = faults w.
Proof.
  intros Hc Hopen Hh. unfold init_sqlite, Connection_executescript.
  change (foldr _ _ schema_script) with (run_script conn schema_script).
  destruct (commit_any conn w c Hc Hopen Hh) as (c1 & E1 & E2 & E3 & E4 & E5 & E6).
  destruct (Connection_commit conn w) as [o w1] eqn:Hw1. cbn [fst snd] in *. subst o.
  assert (conns w1 !! conn = Some c1) as Hc1.
  { rewrite E2. by eapply lookup_insert_same. }
  assert (healthy w1) as Hh1 by (by eapply healthy_same).
  assert (∃ ddl script, schema_script = ddl :: script) as (ddl & script & Hs)
    by (by eexists _, _).
  destruct (script_ok conn script ddl w1 c1 Hc1 E3 Hh1) as (H1 & H2 & H3 & H4).
  rewrite <- Hs in H1, H2, H3, H4. clear Hs.
  destruct (run_script conn schema_script w1) as [o w2] eqn:Hw2;
    cbn [fst snd] in *; subst o.
  erewrite bind_Return.
  2:{ erewrite bind_Return by exact Hw1. exact Hw2. }
  erewrite commit_idle.
  2:{ rewrite H2. eapply lookup_insert_same. exact Hc1. }
  2:{ done. }
  2:{ done. }
  cbn zeta. world_simpl. rewrite H2, H3, H4, E2, E4, E5, E6.
  by rewrite list_insert_insert_eq.
Qed.

Lemma create_exists ddl db :
  table_exists (ct_name ddl) db = true → create_table_if_not_exists ddl db = db.
Proof. intros H. unfold create_table_if_not_exists. by rewrite H. Qed.

Lemma table_exists_after_create ddl db :
  table_exists (ct_name ddl) (create_table_if_not_exists ddl db) = true.
Proof.
  unfold create_table_if_not_exists.
  destruct (table_exists (ct_name ddl) db) eqn:E; [done|].
  unfold table_exists, table_names. cbn. rewrite bool_decide_eq_true, fmap_app.
  apply elem_of_app. right. cbn. left.
Qed.

Lemma create_all_exists script : ∀ db name,
  table_exists name db = true → table_exists name (create_all script db) = true.
Proof.
  induction script as [|ddl script IH]; intros db name H; [done|].
  cbn. apply IH. by apply table_exists_create.
Qed.

Lemma create_all_creates script : ∀ db ddl,
  ddl ∈ script → table_exists (ct_name ddl) (create_all script db) = true.
Proof.
  induction script as [|ddl' script IH]; intros db ddl Hin; [by apply elem_of_nil in Hin|].
  cbn. apply elem_of_cons in Hin as [->|Hin].
  - apply create_all_exists, table_exists_after_create.
  - by apply IH.
Qed.

Lemma create_all_id script : ∀ db,
  (∀ ddl, ddl ∈ script → table_exists (ct_name ddl) db = true) →
  create_all script db = db.
Proof.
  induction script as [|ddl script IH]; intros db H; [done|].
  cbn. rewrite create_exists by (apply H; left). apply IH.
  intros d Hd. apply H. by right.
Qed.

Lemma create_all_idempotent script db :
  create_all script (create_all script db) = create_all script db.
Proof. apply create_all_id. intros ddl Hin. by apply create_all_creates. Qed.

Lemma has_schema_create_all db : has_schema (create_all schema_script db) = true.
Proof.
  unfold has_schema. apply forallb_forall. intros name Hin.
  apply list_elem_of_In in Hin. unfold schema_tables in Hin.
  apply list_elem_of_fmap in Hin as (ddl & -> & Hin). by apply create_all_creates.
Qed.

Lemma NoDup_create ddl db :
  NoDup (table_names db) → NoDup (table_names (create_table_if_not_exists ddl db)).
Proof.
  intros H. unfold create_table_if_not_exists.
  destruct (table_exists (ct_name ddl) db) eqn:E; [done|].
  unfold table_names. cbn. rewrite fmap_app. apply NoDup_app. split_and!.
  - done.
  - intros x Hx Hx'. apply list_elem_of_singleton in Hx'. subst.
    unfold table_exists in E. by rewrite bool_decide_eq_false in E.
  - apply NoDup_singleton.
Qed.

Lemma NoDup_create_all script : ∀ db,
  NoDup (table_names db) → NoDup (table_names (create_all script db)).
Proof.
  induction script as [|ddl script IH]; intros db H; [done|].
  cbn. by apply IH, NoDup_create.
Qed.

Lemma same_rows_create_all script : ∀ db, same_rows db (create_all script db).
Proof.
  induction script as [|ddl script IH]; intros db; [by unfold same_rows|].
  cbn. specialize (IH (create_table_if_not_exists ddl db)).
  unfold same_rows in *. unfold create_table_if_not_exists in IH at 2 4 6 8 10 12 14.
  destruct (table_exists (ct_name ddl) db); cbn in IH; done.
Qed.

Lemma init_sqlite_times_ok conn n : ∀ w c,
  conns w !! conn = Some c → closed c = false → healthy w →
  let r := init_sqlite_times (S n) conn w in
  r.1 = Return tt ∧
  conns r.2 = <[conn := settled (create_all schema_script (working c))]> (conns w) ∧
  heap r.2 = heap w ∧ faults r.2 = faults w.
Proof.
  induction n as [|n IH]; intros w c Hc Hopen Hh;
    destruct (init_sqlite_ok conn w c Hc Hopen Hh) as (H1 & H2 & H3 & H4);
    destruct (init_sqlite conn w) as [o w1] eqn:Hw1; cbn [fst snd] in *; subst o.
  - cbn [init_sqlite_times]. erewrite bind_Return by exact Hw1. done.
  - change (init_sqlite_times (S (S n)) conn) with
      (init_sqlite conn;; init_sqlite_times (S n) conn).
    erewrite bind_Return by exact Hw1.
    edestruct (IH w1) as (I1 & I2 & I3 & I4).
    { rewrite H2. by eapply lookup_insert_same. }
    { done. }
    { by eapply healthy_same. }
    cbn zeta. rewrite I1, I2, I3, I4, H2, H3, H4. cbn [working settled].
    by rewrite create_all_idempotent, list_insert_insert_eq.
Qed.

(** ** The context factory *)

Lemma hex_inj a b : a < 2 ^ 128 → b < 2 ^ 128 → uuid.hex a = uuid.hex b → a = b.
Proof.
  intros Ha Hb H. unfold uuid.hex in H.
  assert (int_base16 (hex_digits 32 a) = Some a) as Ea by (by apply int_base16_hex_digits).
  assert (int_base16 (hex_digits 32 b) = Some b) as Eb by (by apply int_base16_hex_digits).
  rewrite H in Ea. congruence.
Qed.

Lemma uuid_at_lt w i : uuid_at w i < 2 ^ 128.
Proof. unfold uuid_at. apply N.mod_lt. done. Qed.

Lemma ctx_factory_eq w :
  _ctx_factory w
  = (Return (length (heap w)),
     set_heap (λ h, h ++ [{| request_id := uuid.hex (uuid_at w (drawn w));
                             started := clock w (ticks w);
                             request_chunk_index := 0;
                             response_chunk_index := 0 |}]) (tick (draw w))).
Proof. reflexivity. Qed.

Lemma ids_drawn_NoDup w :
  ids_drawn w → distinct_draws w (drawn w) → NoDup (request_id <$> heap w).
Proof.
  intros Hids Hd. rewrite Hids. apply NoDup_fmap_2_strong; [|apply NoDup_seq].
  intros i j Hi Hj H. apply elem_of_seq in Hi, Hj.
  apply Hd; [lia|lia|]. eapply hex_inj; [apply uuid_at_lt|apply uuid_at_lt|done].
Qed.

Lemma host_step_ids conn a w :
  let tc := trace_config (SQLiteTraceRecorder_init conn) in
  let w' := (host_step tc a w).2 in
  ids_drawn w →
  ids_drawn w' ∧ uuids w' = uuids w ∧
  drawn w' = (drawn w + match a with NewRequest => 1 | Fire _ => 0 end)%nat.
Proof.
  intros tc w' Hids. destruct a as [|ev].
  - unfold w', tc. cbn [host_step SQLiteTraceRecorder_init trace_config
                         trace_config_ctx_factory TraceConfig_new].
    erewrite bind_Return by apply ctx_factory_eq. cbn [mret M_ret snd].
    split_and!; [|done|cbn; lia].
    unfold ids_drawn. world_simpl. rewrite fmap_app, Hids.
    replace (S (drawn w)) with (drawn w + 1)%nat by lia.
    rewrite seq_app, fmap_app. done.
  - destruct (fire_sources conn ev w) as (_ & Hu & Hd & _ & Hr & _).
    unfold w', tc. cbn [host_step]. split_and!; [|done|lia].
    unfold ids_drawn, uuid_at. rewrite Hr, Hu, Hd. exact Hids.
Qed.

Lemma run_ids conn acts : ∀ w,
  let tc := trace_config (SQLiteTraceRecorder_init conn) in
  let w' := (run tc acts w).2 in
  ids_drawn w →
  ids_drawn w' ∧ uuids w' = uuids w ∧ drawn w' = (drawn w + new_requests acts)%nat.
Proof.
  induction acts as [|a acts IH]; intros w tc w' Hids; subst tc w'.
  - cbn. split_and!; [done|done|unfold new_requests; cbn; lia].
  - rewrite run_cons.
    destruct (host_step_ids conn a w Hids) as (H1 & H2 & H3).
    destruct (IH _ H1) as (I1 & I2 & I3).
    split_and!; [exact I1|etrans; [exact I2|exact H2]|].
    etrans; [exact I3|]. rewrite H3. unfold new_requests. cbn [List.filter].
    destruct a; cbn [length]; lia.
Qed.

(** ** The detail tables *)

Lemma detail_event_ids_insert table sql db :
  detail_event_ids table (insert_row sql db).1
  = detail_event_ids table db
    ++ if decide (table = statement_table sql) then detail_id sql else [].
Proof.
  unfold detail_event_ids.
  destruct sql; cbn [insert_row fst statement_table detail_id
                     request_start request_end request_exception request_chunk
                     response_chunk];
    repeat case_decide; simplify_eq; rewrite ?fmap_app, ?app_nil_r; done.
Qed.

Lemma detail_statement_table ev ns w id :
  statement_table (detail_statement ev ns w id) = event_kind ev.
Proof. by destruct ev. Qed.

Lemma detail_statement_id ev ns w id : detail_id (detail_statement ev ns w id) = [id].
Proof. by destruct ev. Qed.

(** ** The host and the handlers *)

(** Firing a hook of the recorder's registry runs the one handler of that
    hook, bound to the recorder's connection. *)
Lemma fire_handler conn ev w :
  fire (trace_config (SQLiteTraceRecorder_init conn)) ev w = handler conn ev w.
Proof. destruct ev; unfold_fire; rewrite send_one; reflexivity. Qed.

Lemma host_step_invoke conn a w :
  host_step (trace_config (SQLiteTraceRecorder_init conn)) a w = invoke conn a w.
Proof. destruct a as [|ev]; [reflexivity|apply fire_handler]. Qed.

Lemma run_invocations conn acts : ∀ w,
  run (trace_config (SQLiteTraceRecorder_init conn)) acts w = invocations conn acts w.
Proof.
  induction acts as [|a acts IH]; intros w; [reflexivity|].
  cbn [run invocations]. rewrite host_step_invoke.
  destruct (invoke conn a w) as [o w1]. by rewrite IH.
Qed.

(* ===================================================================== *)
(** * The properties of the specification *)

(** ** Order of the steps of a chunk handler *)




(** ** One event row and one detail row *)

Lemma events_two_inserts ev ns w db :
  events (insert_row (detail_statement ev ns w (next_event_id db))
            (insert_row (event_statement ev ns w) db).1).1
  = events db ++ [event_row ev ns w (next_event_id db)].
Proof. rewrite !insert_row_events. destruct ev; cbn; by rewrite app_nil_r. Qed.

Lemma detail_two_inserts table ev ns w db id :
  detail_event_ids table
    (insert_row (detail_statement ev ns w id) (insert_row (event_statement ev ns w) db).1).1
  = detail_event_ids table db ++ if decide (table = event_kind ev) then [id] else [].
Proof.
  rewrite !detail_event_ids_insert, detail_statement_table, detail_statement_id.
  unfold event_statement. cbn [detail_id]. destruct (decide (table = _)); by rewrite app_nil_r.
Qed.



(** ** Elapsed time *)




(** ** Chunk indices *)



(** ** Round trip of the headers *)

(** C4 (against the claim).  A value that holds the two code points U+D83D
    U+DE00 (a high surrogate followed by a low one) is serialized to the
    same text as the value that holds the one code point U+1F600, so no
    reader gives both back; the reader gives back the second: the list read
    back is not the list that was serialized. *)
Lemma surrogate_pair_not_round_tripped :
  let headers := [(py "x-a", [0xD83D; 0xDE00])] in
  let other := [(py "x-a", [0x1F600])] in
  valid_headers headers = true ∧
  _serialize_headers headers = _serialize_headers other ∧
  deserialize_headers (_serialize_headers headers) = Some other ∧
  deserialize_headers (_serialize_headers headers) ≠ Some headers.
Proof. vm_compute. split_and!; [reflexivity|reflexivity|reflexivity|discriminate]. Qed.

(** C4 (the round trip).  A list of pairs of strings (code points below
    0x110000), none of which holds a high surrogate immediately followed by
    a low surrogate, is read back from its serialization exactly: the same
    pairs in the same order, duplicate names included. *)
Theorem serialize_headers_round_trip headers :
  valid_headers headers = true → no_surrogate_pairs headers = true →
  deserialize_headers (_serialize_headers headers) = Some headers.
Proof.
  intros Hv Hn. unfold deserialize_headers, _serialize_headers.
  apply loads_dumps. by apply headers_ok.
Qed.

(** A list with a name twice, a quote, a backslash and code points beyond
    ASCII. *)
Lemma serialize_headers_round_trip_witness :
  let headers := [(py "Set-Cookie", py "a=1"); (py "Accept", [233; 0x1F600; 34; 92]);
                  (py "Set-Cookie", py "b=2")] in
  deserialize_headers (_serialize_headers headers) = Some headers.
Proof. apply serialize_headers_round_trip; reflexivity. Defined.

(** ** Idempotence of [init_sqlite] *)

(** C6 (against the count).  After the set-up of the module's docstring the
    database has six tables, not five: [events] and five detail tables. *)
Lemma init_sqlite_creates_six_tables :
  let w := (init_sqlite 0 (sqlite3_connect (new_process steady_clock never)).2).2 in
  (λ c, table_names (durable c)) <$> conns w !! 0%nat
  = Some ["events"; "request_start"; "request_end"; "request_exception";
          "request_chunk"; "response_chunk"] ∧
  (λ c, length (table_names (durable c))) <$> conns w !! 0%nat = Some 6%nat ∧
  Nat.eqb 6 5 = false.
Proof. vm_compute. repeat split. Qed.

(** C6 (idempotence).  On an open connection whose tables have distinct
    names, with a storage backend that does not fail, [init_sqlite] called
    once returns normally and leaves the six tables of the script in the
    committed database, no table twice, and the rows of every table as they
    were; called any number of times more it returns normally and the
    connections are exactly as after the first call; and when the six
    tables existed before the first call, that call leaves the schema as it
    was. *)
Theorem init_sqlite_idempotent conn n w c :
  conns w !! conn = Some c → closed c = false → healthy w →
  NoDup (table_names (working c)) →
  let r1 := init_sqlite conn w in
  let rn := init_sqlite_times (S n) conn w in
  r1.1 = Return tt ∧ rn.1 = Return tt ∧ conns rn.2 = conns r1.2 ∧
  schema_tables = ["events"; "request_start"; "request_end"; "request_exception";
                   "request_chunk"; "response_chunk"] ∧
  ∃ c', conns r1.2 !! conn = Some c' ∧ closed c' = false ∧
    durable c' = working c' ∧
    has_schema (durable c') = true ∧
    NoDup (table_names (durable c')) ∧
    same_rows (working c) (durable c') ∧
    (has_schema (working c) = true → durable c' = working c).
Proof.
  intros Hc Hopen Hh Hnd r1 rn.
  destruct (init_sqlite_ok conn w c Hc Hopen Hh) as (H1 & H2 & _).
  destruct (init_sqlite_times_ok conn n w c Hc Hopen Hh) as (H3 & H4 & _).
  fold r1 in H1, H2. fold rn in H3, H4.
  split_and!; [exact H1|exact H3|congruence|reflexivity|].
  exists (settled (create_all schema_script (working c))). split.
  { rewrite H2. apply list_lookup_insert_eq. by eapply lookup_lt_Some. }
  cbn [settled closed durable working]. split_and!; [done|done| | | |].
  - apply has_schema_create_all.
  - by apply NoDup_create_all.
  - apply same_rows_create_all.
  - intros Hs. apply create_all_id. intros ddl Hin.
    unfold has_schema in Hs. rewrite forallb_forall in Hs. apply Hs.
    apply list_elem_of_In. unfold schema_tables. by apply list_elem_of_fmap_2.
Qed.

(** Three calls on a connection that was just opened. *)
Lemma init_sqlite_idempotent_witness :
  let w := (sqlite3_connect (new_process steady_clock never)).2 in
  (init_sqlite_times 3 0 w).1 = Return tt ∧
  conns (init_sqlite_times 3 0 w).2 = conns (init_sqlite 0 w).2.
Proof.
  intros w.
  destruct (init_sqlite_idempotent 0 2 w (settled empty_database))
    as (_ & H1 & H2 & _); [reflexivity|reflexivity|intros k; reflexivity|constructor|].
  split; [exact H1|exact H2].
Defined.

(** ** The context factory and its correlation ids *)



(** ** Storage errors *)



(** ** The recorder and the connection *)

(** C9.  The recorder built from [conn] keeps [conn], its registry has the
    factory of the module and, on each of the five hooks, exactly one
    handler, the handler of the module for that hook bound to [conn].
    Building the recorder is a function of [conn] alone: it touches no
    state.  In every state, whether they return or raise, a handler and the
    factory leave the set of connections and which of them are closed as
    they were, leave every connection but [conn] untouched, and call
    neither [connect] nor [close]. *)
Theorem recorder_registers_handlers conn :
  let recorder := SQLiteTraceRecorder_init conn in
  let tc := trace_config recorder in
  _conn recorder = conn ∧
  trace_config_ctx_factory tc = _ctx_factory ∧
  on_request_start tc = [_on_request_start conn] ∧
  on_request_end tc = [_on_request_end conn] ∧
  on_request_exception tc = [_on_request_exception conn] ∧
  on_request_chunk_sent tc = [_on_request_chunk_sent conn] ∧
  on_response_chunk_received tc = [_on_response_chunk_received conn] ∧
  (∀ ev w, fire tc ev w = handler conn ev w) ∧
  (∀ acts w, run tc acts w = invocations conn acts w) ∧
  (∀ ev, preserves (same_handles conn) (handler conn ev)) ∧
  preserves (same_handles conn) _ctx_factory.
Proof.
  intros recorder tc. split_and!; try reflexivity.
  - intros ev w. apply fire_handler.
  - intros acts w. apply run_invocations.
  - intros ev w. rewrite <- fire_handler. apply fire_handles.
  - apply ctx_factory_handles.
Qed.

(** ** What the handlers change of a context *)

Lemma sent_by_fire ev ns :
  request_chunk_index (ctx_after ev ns)
  = (request_chunk_index ns + sent_by (event_ctx ev) (Fire ev))%Z.
Proof.
  unfold sent_by. destruct ev; cbn; rewrite ?bool_decide_eq_true_2 by done; lia.
Qed.

Lemma received_by_fire ev ns :
  response_chunk_index (ctx_after ev ns)
  = (response_chunk_index ns + received_by (event_ctx ev) (Fire ev))%Z.
Proof.
  unfold received_by. destruct ev; cbn; rewrite ?bool_decide_eq_true_2 by done; lia.
Qed.

(** C10.  In every state, whether the handler returns or raises: the
    correlation ids and the start times of all contexts are as they were;
    the start, end and exception handlers leave the whole heap of contexts
    as it was; a chunk handler leaves it as it was or replaces the context
    of its event by [ctx_after], and does the latter when it returns
    normally.  [ctx_after] keeps the correlation id and the start time,
    adds 1 to the request-chunk counter for a chunk-sent event and nothing
    otherwise, and adds 1 to the response-chunk counter for a
    chunk-received event and nothing otherwise. *)
Theorem handlers_context_frame conn ev w :
  let r := handler conn ev w in
  request_id <$> heap r.2 = request_id <$> heap w ∧
  started <$> heap r.2 = started <$> heap w ∧
  (chunk_event ev = false → heap r.2 = heap w) ∧
  (heap r.2 = heap w ∨
   ∃ ns, heap w !! event_ctx ev = Some ns ∧
         heap r.2 = <[event_ctx ev := ctx_after ev ns]> (heap w)) ∧
  (r.1 = Return tt →
   ∀ ns, heap w !! event_ctx ev = Some ns →
         heap r.2 = <[event_ctx ev := ctx_after ev ns]> (heap w)) ∧
  (∀ ns, request_id (ctx_after ev ns) = request_id ns ∧
         started (ctx_after ev ns) = started ns ∧
         request_chunk_index (ctx_after ev ns)
         = (request_chunk_index ns + sent_by (event_ctx ev) (Fire ev))%Z ∧
         response_chunk_index (ctx_after ev ns)
         = (response_chunk_index ns + received_by (event_ctx ev) (Fire ev))%Z) ∧
  sent_by (event_ctx ev) (Fire ev)
  = match ev with RequestChunkSent _ _ => 1 | _ => 0 end%Z ∧
  received_by (event_ctx ev) (Fire ev)
  = match ev with ResponseChunkReceived _ _ => 1 | _ => 0 end%Z.
Proof.
  intros r.
  pose proof (fire_sources conn ev w) as Hs. rewrite fire_handler in Hs. fold r in Hs.
  destruct Hs as (_ & _ & _ & _ & Hid & Hst).
  assert (chunk_event ev = true → chunk_steps conn ev w r) as Hsteps.
  { intros Hev. unfold r. rewrite <- fire_handler. by apply fire_chunk_steps. }
  assert (chunk_event ev = false → heap r.2 = heap w) as Hplain.
  { intros Hev. unfold r. rewrite <- fire_handler.
    destruct ev as [ctx p|ctx p|ctx p|ctx p|ctx p]; try discriminate Hev.
    - apply fire_heap_start.
    - apply fire_heap_end.
    - apply fire_heap_exception. }
  split_and!; [exact Hid|exact Hst|exact Hplain| | | | |].
  - destruct (chunk_event ev) eqn:Hev; [|left; by apply Hplain].
    destruct (Hsteps eq_refl)
      as [(e & _ & Hheap & _)|(c & ns & o & _ & Hns & Hheap & _)].
    + by left.
    + right. by exists ns.
  - intros Hr ns Hns. destruct (chunk_event ev) eqn:Hev.
    + destruct (Hsteps eq_refl)
        as [(e & He & _)|(c & ns0 & o & _ & Hns0 & Hheap & _)].
      * rewrite Hr in He. discriminate He.
      * rewrite Hns in Hns0. by simplify_eq.
    + rewrite (Hplain eq_refl).
      replace (ctx_after ev ns) with ns by (by destruct ev).
      symmetry. by apply list_insert_id.
  - intros ns. split_and!; [by destruct ev|by destruct ev| |].
    + apply sent_by_fire.
    + apply received_by_fire.
  - unfold sent_by. destruct ev; cbn; rewrite ?bool_decide_eq_true_2; done.
  - unfold received_by. destruct ev; cbn; rewrite ?bool_decide_eq_true_2; done.
Qed.
